(** * evolve_text.py: memoised distance, Message and the genetic operators

    A shallow embedding of [src/evolve_text.py].

    - Python [str] is [string]; a [Message] (a [list] subclass holding
      one-character strings) is a record with the list of its characters
      and its [fitness] attribute.
    - Python integers are [Z].
    - The module-level dictionary [known] is a [gmap string Z] threaded
      through the two distance functions.
    - The [random] module is a tape of raw draws threaded through the
      operators; a Python exception aborts the computation. *)

From Stdlib Require Import ZArith QArith Ascii String List Lia Bool.
From stdpp Require Import gmap strings list fin_maps.

Local Open Scope string_scope.
Local Open Scope Z_scope.

(** ** Python strings *)

(** [len(s)] *)
Definition len (s : string) : Z := Z.of_nat (String.length s).

(** [ord(c)] *)
Definition ord (c : ascii) : Z := Z.of_nat (nat_of_ascii c).

(** [val = 0; for char in s: val += ord(char)] *)
Fixpoint sum_ord (s : string) : Z :=
  match s with
  | EmptyString => 0
  | String c s' => ord c + sum_ord s'
  end.

(** [VALID_CHARS = string.ascii_uppercase + " "] *)
Definition VALID_CHARS : string := "ABCDEFGHIJKLMNOPQRSTUVWXYZ ".

(** [char in VALID_CHARS] *)
Fixpoint char_in (c : ascii) (s : string) : bool :=
  match s with
  | EmptyString => false
  | String d s' => Ascii.eqb c d || char_in c s'
  end.

(** The check the command-line entry point runs over the goal:
    every character is in [VALID_CHARS]. *)
Fixpoint valid_text (s : string) : bool :=
  match s with
  | EmptyString => true
  | String c s' => char_in c VALID_CHARS && valid_text s'
  end.

(** No character of [s] is the separator the memo key is built with. *)
Fixpoint no_comma (s : string) : bool :=
  match s with
  | EmptyString => true
  | String c s' => negb (Ascii.eqb c ",") && no_comma s'
  end.

(** ** The memoised distance functions *)

Module EditDistance.

(** [n = str1 + ',' + str2] *)
Definition key (str1 str2 : string) : string := str1 +:+ "," +:+ str2.

(** [known = {',':0}] *)
Definition known0 : gmap string Z := {[ "," := 0 ]}.

(** [levenshtein_distance(str1, str2)], returning the result and the
    dictionary [known] as the call leaves it. *)
Fixpoint levenshtein_distance (known : gmap string Z) (str1 str2 : string)
  : Z * gmap string Z :=
  let n := key str1 str2 in
  match known !! n with
  | Some v => (v, known)
  | None =>
    if String.eqb str1 str2 then (0, <[n := 0]> known)
    else
      match str1, str2 with
      | String c1 s1, String c2 s2 =>
        if Ascii.eqb c1 c2 then
          let '(res, known') := levenshtein_distance known s1 s2 in
          (res, <[n := res]> known')
        else
          let '(r, known') := levenshtein_distance known s1 s2 in
          let res := 1 + r in
          (res, <[n := res]> known')
      | _, _ =>
        let res := len str1 + len str2 in
        (res, <[n := res]> known)
      end
  end.

(** [modified_levenshtein_distance(str1, str2)]; the recursive calls are
    calls of [levenshtein_distance], and the empty branch returns without
    storing. *)
Definition modified_levenshtein_distance (known : gmap string Z)
    (str1 str2 : string) : Z * gmap string Z :=
  let n := key str1 str2 in
  match known !! n with
  | Some v => (v, known)
  | None =>
    if String.eqb str1 str2 then (0, <[n := 0]> known)
    else
      match str1, str2 with
      | String c1 s1, String c2 s2 =>
        if Ascii.eqb c1 c2 then
          let '(res, known') := levenshtein_distance known s1 s2 in
          (res, <[n := res]> known')
        else
          let '(r, known') := levenshtein_distance known s1 s2 in
          let res := Z.abs (ord c1 - ord c2) + r in
          (res, <[n := res]> known')
      | _, _ => (sum_ord str1 + sum_ord str2, known)
      end
  end.

(** The recursive definition of the specification, without a table:
    equal sequences cost 0; if either is empty the cost is the length of
    the other; if the first symbols match the cost is that of the
    suffixes; otherwise it is one more than that of the suffixes. *)
Fixpoint distance_spec (a b : string) : Z :=
  if String.eqb a b then 0
  else
    match a, b with
    | EmptyString, _ => len b
    | _, EmptyString => len a
    | String c a', String d b' =>
      if Ascii.eqb c d then distance_spec a' b' else 1 + distance_spec a' b'
    end.

(** The branch a distance call takes. *)
Inductive branch : Type :=
| Cached | Equal | Empty | HeadsMatch | HeadsDiffer.

Definition branch_of (known : gmap string Z) (str1 str2 : string) : branch :=
  match known !! key str1 str2 with
  | Some _ => Cached
  | None =>
    if String.eqb str1 str2 then Equal
    else
      match str1, str2 with
      | String c1 _, String c2 _ =>
        if Ascii.eqb c1 c2 then HeadsMatch else HeadsDiffer
      | _, _ => Empty
      end
  end.

(** [s[0]], with a default where the text is empty. *)
Definition head_char (s : string) : ascii :=
  match s with String c _ => c | EmptyString => "000"%char end.

(** [s[1:len(s)]] *)
Definition tail (s : string) : string :=
  match s with String _ s' => s' | EmptyString => EmptyString end.

(** What the two variants do in the branch where the first symbols
    differ: [cost] plus the plain distance of the suffixes, stored under
    the key of the call. *)
Definition differ_step (cost : Z) (known : gmap string Z) (str1 str2 : string)
  : Z * gmap string Z :=
  let r := levenshtein_distance known (tail str1) (tail str2) in
  (cost + fst r, <[key str1 str2 := cost + fst r]> (snd r)).

(** Every entry stored under the key of a comma-free pair is the
    specification's distance of that pair. *)
Definition memo_sound (known : gmap string Z) : Prop :=
  forall a b v,
    no_comma a = true -> no_comma b = true ->
    known !! key a b = Some v -> v = distance_spec a b.

(** The tables a run reaches when it only evaluates the plain distance on
    texts over [VALID_CHARS], as [evaluate_text] does. *)
Inductive reachable : gmap string Z -> Prop :=
| reach_init : reachable known0
| reach_call known a b :
    reachable known ->
    valid_text a = true -> valid_text b = true ->
    reachable (snd (levenshtein_distance known a b)).

End EditDistance.

Import EditDistance.

(** ** The [random] module and exceptions *)

Module Rand.

(** The exceptions the modelled code can raise. *)
Inductive exn : Type := ValueError | IndexError.

(** The generator: an endless tape of raw draws and the number of draws
    consumed so far. *)
Record rng : Type := { tape : nat -> N; pos : nat }.

(** A computation either returns a value and the generator it leaves, or
    raises; nothing in the file catches an exception. *)
Inductive outcome (A : Type) : Type :=
| Return (a : A) (s : rng)
| Raise (e : exn).
Arguments Return {A} a s.
Arguments Raise {A} e.

Definition M (A : Type) : Type := rng -> outcome A.

#[export] Instance M_ret : MRet M := fun A a s => Return a s.

#[export] Instance M_bind : MBind M := fun A B f m s =>
  match m s with
  | Return a s' => f a s'
  | Raise e => Raise e
  end.

Definition raise {A} (e : exn) : M A := fun _ => Raise e.

(** Drop the next [k] raw draws. *)
Definition advance (k : nat) (s : rng) : rng :=
  {| tape := tape s; pos := (k + pos s)%nat |}.

Definition next_raw : M N := fun s => Return (tape s (pos s)) (advance 1 s).

(** [random.random()]: a double in [[0, 1)], a multiple of [2^-53]. *)
Definition random_random : M Q :=
  r ← next_raw;
  mret (Qmake (Z.of_N (r mod 2 ^ 53)) (2 ^ 53)%positive).

(** [random.randint(a, b)]: [ValueError] on an empty range, otherwise an
    integer of [[a, b]], both ends included. *)
Definition randint (a b : Z) : M Z :=
  if b <? a then raise ValueError
  else r ← next_raw; mret (a + Z.of_N r mod (b - a + 1)).

(** The value [random.random()] returns from generator [s]. *)
Definition random_value (s : rng) : Q :=
  Qmake (Z.of_N (tape s (pos s) mod 2 ^ 53)) (2 ^ 53)%positive.

(** The value [random.randint(a, b)] returns from generator [s] when the
    range is not empty. *)
Definition randint_value (a b : Z) (s : rng) : Z :=
  a + Z.of_N (tape s (pos s)) mod (b - a + 1).

(** The integers [random.randint(a, b)] can return. *)
Definition randint_outcomes (a b : Z) : list Z := seqZ a (b - a + 1).

(** [x < y] on the rationals that doubles are. *)
Definition Qltb (x y : Q) : bool := negb (Qle_bool y x).

End Rand.

Import Rand.

(** ** Python sequences *)

(** The position a subscript [i] denotes in a sequence of length [n]:
    a negative subscript counts from the end. *)
Definition subscript (n i : Z) : option nat :=
  let j := if i <? 0 then i + n else i in
  if (0 <=? j) && (j <? n) then Some (Z.to_nat j) else None.

(** [l[i]] *)
Definition getitem {A} (l : list A) (i : Z) : M A :=
  match subscript (Z.of_nat (length l)) i with
  | Some j => match l !! j with Some x => mret x | None => raise IndexError end
  | None => raise IndexError
  end.

(** [del l[i]] *)
Definition delitem {A} (l : list A) (i : Z) : M (list A) :=
  match subscript (Z.of_nat (length l)) i with
  | Some j => mret (delete j l)
  | None => raise IndexError
  end.

(** [l.insert(i, x)]: a subscript past either end is clamped. *)
Definition list_insert_at {A} (l : list A) (i : Z) (x : A) : list A :=
  let n := Z.of_nat (length l) in
  let j := if i <? 0 then Z.max 0 (i + n) else Z.min i n in
  take (Z.to_nat j) l ++ x :: drop (Z.to_nat j) l.

(** One bound of a slice, clamped into [[0, n]]. *)
Definition slice_bound (n i : Z) : Z :=
  if i <? 0 then Z.max 0 (i + n) else Z.min i n.

(** [l[lo:hi]] *)
Definition slice {A} (l : list A) (lo hi : Z) : list A :=
  let n := Z.of_nat (length l) in
  let lo' := slice_bound n lo in
  let hi' := slice_bound n hi in
  take (Z.to_nat (hi' - lo')) (drop (Z.to_nat lo') l).

(** [range(lo, hi)] *)
Definition range (lo hi : Z) : list Z := seqZ lo (hi - lo).

(** ** Message *)

(** The fitness attribute: unset, or the value last stored. The class
    [FitnessMinimizeSingle] comes from the framework; a fresh instance
    holds no value. *)
Definition Fitness : Type := option Z.

Record Message : Type := { chars : list ascii; fitness : Fitness }.

Definition set_chars (m : Message) (cs : list ascii) : Message :=
  {| chars := cs; fitness := fitness m |}.

(** [len(message)] *)
Definition llen (m : Message) : Z := Z.of_nat (length (chars m)).

(** Truth value of the argument [starting_string]: [None] and the empty
    string are both false. *)
Definition truthy (starting_string : option string) : bool :=
  match starting_string with
  | None => false
  | Some EmptyString => false
  | Some (String _ _) => true
  end.

(** [random.choice(seq)] *)
Definition random_choice (seq : string) : M ascii :=
  if len seq =? 0 then raise IndexError
  else i ← randint 0 (len seq - 1); getitem (list_ascii_of_string seq) i.

(** [for i in range(initial_length): self.append(random.choice(VALID_CHARS))] *)
Fixpoint append_random (k : nat) (self : list ascii) : M (list ascii) :=
  match k with
  | O => mret self
  | S k' => c ← random_choice VALID_CHARS; append_random k' (self ++ [c])
  end.

(** [Message.__init__(self, starting_string, min_length, max_length)] *)
Definition Message_init (starting_string : option string)
    (min_length max_length : Z) : M Message :=
  let fitness0 : Fitness := None in
  if truthy starting_string then
    mret {| chars := list_ascii_of_string (default "" starting_string);
            fitness := fitness0 |}
  else
    initial_length ← randint min_length max_length;
    cs ← append_random (Z.to_nat initial_length) [];
    mret {| chars := cs; fitness := fitness0 |}.

(** [Message.get_text(self)] *)
Definition get_text (self : Message) : string :=
  string_of_list_ascii (chars self).

(** [evaluate_text(message, goal_text)] without the printing. *)
Definition evaluate_text (known : gmap string Z) (message : Message)
    (goal_text : string) : Z * gmap string Z :=
  levenshtein_distance known (get_text message) goal_text.

(** ** Genetic operators *)

(** [VALID_CHARS[d - 1]] for the outcome [d] of
    [random.randint(0, len(VALID_CHARS))]. *)
Definition symbol_of_draw (d : Z) : M ascii :=
  getitem (list_ascii_of_string VALID_CHARS) (d - 1).

(** [VALID_CHARS[random.randint(0,len(VALID_CHARS)) - 1]] *)
Definition draw_symbol : M ascii :=
  d ← randint 0 (len VALID_CHARS); symbol_of_draw d.

(** [mutate_text(message, prob_ins, prob_del, prob_sub)] *)
Definition mutate_text (message : Message) (prob_ins prob_del prob_sub : Q)
  : M Message :=
  r ← random_random;
  message ← (if Qltb r prob_ins then
               insert_loc ← randint 0 (llen message - 1);
               to_insert ← draw_symbol;
               mret (set_chars message
                       (list_insert_at (chars message) insert_loc to_insert))
             else mret message);
  r ← random_random;
  message ← (if Qltb r prob_del then
               del_loc ← randint 0 (llen message - 1);
               cs ← delitem (chars message) del_loc;
               mret (set_chars message cs)
             else mret message);
  r ← random_random;
  message ← (if Qltb r prob_sub then
               sub_loc ← randint 0 (llen message - 1);
               to_sub ← draw_symbol;
               cs ← delitem (chars message) sub_loc;
               mret (set_chars message (list_insert_at cs sub_loc to_sub))
             else mret message);
  mret message.

(** The body of [for i in range(point1,point2)] in [crossover], over the
    remaining values of [i]. *)
Fixpoint crossover_loop (idxs : list Z) (point1 : Z) (temp1 temp2 : list ascii)
    (str1 str2 : list ascii) : M (list ascii * list ascii) :=
  match idxs with
  | [] => mret (str1, str2)
  | i :: idxs' =>
    str1 ← delitem str1 i;
    x2 ← getitem temp2 (i - point1);
    let str1 := list_insert_at str1 i x2 in
    str2 ← delitem str2 i;
    x1 ← getitem temp1 (i - point1);
    let str2 := list_insert_at str2 i x1 in
    crossover_loop idxs' point1 temp1 temp2 str1 str2
  end.

(** The crossing points: the two draws in ascending order. *)
Definition sort_points (point_a point_b : Z) : Z * Z :=
  if point_a <? point_b then (point_a, point_b) else (point_b, point_a).

(** [crossover(str1, str2)], for two distinct objects. *)
Definition crossover (str1 str2 : Message) : M (Message * Message) :=
  let length1 := llen str1 in
  let length2 := llen str2 in
  let length := if length1 <? length2 then length1 else length2 in
  point_a ← randint 0 (length - 1);
  point_b ← randint 0 (length - 1);
  let '(point1, point2) := sort_points point_a point_b in
  let temp1 := slice (chars str1) point1 point2 in
  let temp2 := slice (chars str2) point1 point2 in
  '(cs1, cs2) ← crossover_loop (range point1 point2) point1 temp1 temp2
                   (chars str1) (chars str2);
  mret (set_chars str1 cs1, set_chars str2 cs2).

(** The shorter of the two lengths. *)
Definition shorter (str1 str2 : Message) : Z := Z.min (llen str1) (llen str2).

(** [point1 <= i < point2] *)
Definition in_segment (point1 point2 : Z) (i : nat) : bool :=
  (point1 <=? Z.of_nat i) && (Z.of_nat i <? point2).

(** Whether the test [random.random() < prob] succeeds from generator [s]. *)
Definition fires (prob : Q) (s : rng) : bool := Qltb (random_value s) prob.

(** ** Concrete inputs *)

(** The generator whose first raw draws are [l], followed by zeros. *)
Definition tape_of (l : list N) : rng :=
  {| tape := fun i => nth i l 0%N; pos := 0 |}.

(** The individual holding text [s] with fitness attribute [f]. *)
Definition message_of (s : string) (f : Fitness) : Message :=
  {| chars := list_ascii_of_string s; fitness := f |}.

(** A computation that, whenever it returns, returns an individual whose
    fitness attribute is [f]. *)
Definition keeps (f : Fitness) (m : M Message) : Prop :=
  forall s, match m s with
            | Return m' _ => fitness m' = f
            | Raise _ => True
            end.

(** Whether outcome [d] of [random.randint(0, len(VALID_CHARS))] makes
    the symbol draw produce [c]. *)
Definition yields (c : ascii) (s : rng) (d : Z) : bool :=
  match symbol_of_draw d s with
  | Return x _ => Ascii.eqb x c
  | Raise _ => false
  end.

(** ** Predicates over individuals and computations *)

(** Every symbol of the list is in [VALID_CHARS]. *)
Definition valid_chars (cs : list ascii) : Prop :=
  Forall (fun c => char_in c VALID_CHARS = true) cs.

(** Whenever the computation returns, the value it returns satisfies [P]. *)
Definition ensures {A} (P : A -> Prop) (m : M A) : Prop :=
  forall s, match m s with
            | Return a _ => P a
            | Raise _ => True
            end.

(** The computation returns from every generator, with a value that
    satisfies [P]. *)
Definition always_returns {A} (P : A -> Prop) (m : M A) : Prop :=
  forall s, exists a s', m s = Return a s' /\ P a.

(** ** The check of the goal at the entry point *)

(** [for char in goal: if char not in VALID_CHARS: raise ValueError(...)] *)
Fixpoint check_goal (goal : string) : M unit :=
  match goal with
  | EmptyString => mret tt
  | String char rest =>
    if negb (char_in char VALID_CHARS) then raise ValueError
    else check_goal rest
  end.

(** An uppercase ASCII letter or the space. *)
Definition upper_or_space (c : ascii) : bool :=
  ((65 <=? ord c) && (ord c <=? 90)) || (ord c =? 32).

(** Every symbol of the text is an uppercase letter or the space. *)
Fixpoint all_upper_or_space (s : string) : bool :=
  match s with
  | EmptyString => true
  | String c s' => upper_or_space c && all_upper_or_space s'
  end.

(** The crossing points [(point1, point2)] that [crossover] computes from
    generator [s] when the shorter individual is not empty. *)
Definition crossing_points (str1 str2 : Message) (s : rng) : Z * Z :=
  sort_points (randint_value 0 (shorter str1 str2 - 1) s)
              (randint_value 0 (shorter str1 str2 - 1) (advance 1 s)).

(** ** The memo key separates comma-free texts *)

Lemma valid_text_no_comma s : valid_text s = true -> no_comma s = true.
Proof.
  induction s as [|c s IH]; simpl; [done|].
  intros [Hc Hs]%andb_prop. rewrite (IH Hs), andb_true_r.
  destruct (Ascii.eqb_spec c ",") as [->|]; [discriminate Hc | done].
Qed.

Lemma no_comma_tail c s : no_comma (String c s) = true -> no_comma s = true.
Proof. simpl. by intros [_ ?]%andb_prop. Qed.

Lemma no_comma_head c s : no_comma (String c s) = true -> c <> ","%char.
Proof.
  simpl. intros [Hc _]%andb_prop ->. by rewrite Ascii.eqb_refl in Hc.
Qed.

Lemma key_nil b : key "" b = String "," b.
Proof. reflexivity. Qed.

Lemma key_cons x a b : key (String x a) b = String x (key a b).
Proof. reflexivity. Qed.

Lemma key_inj a b c d :
  no_comma a = true -> no_comma c = true ->
  key a b = key c d -> a = c /\ b = d.
Proof.
  revert c.
  induction a as [|x a IH]; intros [|y c] Ha Hc Hk;
    rewrite ?key_nil, ?key_cons in Hk.
  - injection Hk as ->. done.
  - injection Hk as Hy _. by destruct (no_comma_head _ _ Hc).
  - injection Hk as Hx _. by destruct (no_comma_head _ _ Ha).
  - injection Hk as -> Hk.
    destruct (IH c (no_comma_tail _ _ Ha) (no_comma_tail _ _ Hc) Hk) as [-> ->].
    done.
Qed.

(** ** The specification's recursion *)

Lemma distance_spec_refl a : distance_spec a a = 0.
Proof. destruct a; simpl; by rewrite ?Ascii.eqb_refl, ?String.eqb_refl. Qed.

Lemma distance_spec_eqb a b : String.eqb a b = true -> distance_spec a b = 0.
Proof. intros ->%String.eqb_eq. apply distance_spec_refl. Qed.

Lemma distance_spec_empty_l s : distance_spec "" s = len s.
Proof. by destruct s. Qed.

Lemma distance_spec_empty_r s : distance_spec s "" = len s.
Proof. by destruct s. Qed.

Lemma distance_spec_cons c a d b :
  distance_spec (String c a) (String d b) =
  if Ascii.eqb c d then distance_spec a b else 1 + distance_spec a b.
Proof.
  simpl. destruct (Ascii.eqb_spec c d) as [->|Hcd]; [|done].
  destruct (String.eqb_spec a b) as [->|Hab]; [|done].
  by rewrite distance_spec_refl.
Qed.

Lemma distance_spec_sym a b : distance_spec a b = distance_spec b a.
Proof.
  revert b. induction a as [|c a IH]; intros [|d b].
  - done.
  - by rewrite distance_spec_empty_l, distance_spec_empty_r.
  - by rewrite distance_spec_empty_l, distance_spec_empty_r.
  - rewrite !distance_spec_cons, (IH b), (Ascii.eqb_sym c d). done.
Qed.

(** ** The table stays sound under the plain distance *)

Lemma memo_sound_known0 : memo_sound known0.
Proof.
  intros a b v Ha Hb. unfold known0.
  intros [Hk <-]%lookup_singleton_Some.
  destruct a as [|x a]; rewrite ?key_nil, ?key_cons in Hk.
  - injection Hk as <-. done.
  - injection Hk as _ Hk. destruct a; discriminate Hk.
Qed.

Lemma memo_sound_insert known a b :
  memo_sound known -> no_comma a = true -> no_comma b = true ->
  memo_sound (<[key a b := distance_spec a b]> known).
Proof.
  intros Hs Ha Hb c d v Hc Hd.
  destruct (decide (key a b = key c d)) as [Hk|Hk].
  - rewrite Hk, lookup_insert_eq. intros [= <-].
    by destruct (key_inj a b c d Ha Hc Hk) as [-> ->].
  - rewrite lookup_insert_ne by done. by apply Hs.
Qed.

Lemma levenshtein_distance_sound known a b :
  memo_sound known -> no_comma a = true -> no_comma b = true ->
  fst (levenshtein_distance known a b) = distance_spec a b /\
  memo_sound (snd (levenshtein_distance known a b)).
Proof.
  revert known b. induction a as [|c a IH]; intros known b Hs Ha Hb.
  - cbn [levenshtein_distance].
    destruct (known !! key "" b) as [v|] eqn:Hv.
    { split; [by apply Hs | done]. }
    destruct (String.eqb "" b) eqn:Heq.
    { split; [by rewrite distance_spec_eqb|].
      rewrite <- (distance_spec_eqb _ _ Heq). by apply memo_sound_insert. }
    cbn [fst snd]. change (len "") with 0. rewrite Z.add_0_l.
    rewrite <- distance_spec_empty_l. split; [done | by apply memo_sound_insert].
  - cbn [levenshtein_distance].
    destruct (known !! key (String c a) b) as [v|] eqn:Hv.
    { split; [by apply Hs | done]. }
    destruct (String.eqb (String c a) b) eqn:Heq.
    { split; [by rewrite distance_spec_eqb|].
      rewrite <- (distance_spec_eqb _ _ Heq). by apply memo_sound_insert. }
    destruct b as [|d b].
    { cbn [fst snd]. change (len "") with 0. rewrite Z.add_0_r.
      rewrite <- distance_spec_empty_r.
      split; [done | by apply memo_sound_insert]. }
    destruct (IH known b Hs (no_comma_tail _ _ Ha) (no_comma_tail _ _ Hb))
      as [Hres Hk'].
    destruct (levenshtein_distance known a b) as [r known'].
    cbn [fst snd] in Hres, Hk'. subst r.
    pose proof (distance_spec_cons c a d b) as Hd.
    destruct (Ascii.eqb c d); cbn [fst snd]; rewrite <- Hd;
      (split; [done | by apply memo_sound_insert]).
Qed.

Lemma reachable_sound known : reachable known -> memo_sound known.
Proof.
  induction 1 as [|known a b _ IH Ha Hb].
  - apply memo_sound_known0.
  - by apply levenshtein_distance_sound; [|apply valid_text_no_comma..].
Qed.

(** ** The generator *)

Lemma bind_Return {A B} (m : M A) (f : A -> M B) s a s' :
  m s = Return a s' -> (m ≫= f) s = f a s'.
Proof. unfold mbind, M_bind. by intros ->. Qed.

Lemma bind_Raise {A B} (m : M A) (f : A -> M B) s e :
  m s = Raise e -> (m ≫= f) s = Raise e.
Proof. unfold mbind, M_bind. by intros ->. Qed.

Lemma advance_advance j k s : advance j (advance k s) = advance (j + k) s.
Proof. unfold advance. cbn. f_equal. lia. Qed.

Lemma randint_Return a b s :
  a <= b -> randint a b s = Return (randint_value a b s) (advance 1 s).
Proof.
  intros Hab. unfold randint.
  destruct (Z.ltb_spec b a); [lia | reflexivity].
Qed.

Lemma randint_Raise a b s : b < a -> randint a b s = Raise ValueError.
Proof.
  intros Hab. unfold randint. destruct (Z.ltb_spec b a); [reflexivity | lia].
Qed.

Lemma randint_value_range a b s :
  a <= b -> a <= randint_value a b s <= b.
Proof.
  intros Hab. unfold randint_value.
  pose proof (Z.mod_pos_bound (Z.of_N (tape s (pos s))) (b - a + 1)). lia.
Qed.

(** ** Subscripts in range *)

Lemma subscript_in n i : 0 <= i < n -> subscript n i = Some (Z.to_nat i).
Proof.
  intros Hi. unfold subscript.
  destruct (Z.ltb_spec i 0); [lia|].
  destruct (Z.leb_spec 0 i); [|lia].
  destruct (Z.ltb_spec i n); [done | lia].
Qed.

Lemma delitem_in {A} (l : list A) i s :
  0 <= i < Z.of_nat (length l) ->
  delitem l i s = Return (delete (Z.to_nat i) l) s.
Proof. intros Hi. unfold delitem. by rewrite subscript_in. Qed.

Lemma getitem_in {A} (l : list A) i x s :
  0 <= i -> l !! Z.to_nat i = Some x -> getitem l i s = Return x s.
Proof.
  intros Hi Hx. unfold getitem.
  apply lookup_lt_Some in Hx as Hlt.
  rewrite subscript_in by lia. by rewrite Hx.
Qed.

Lemma take_drop_delete {A} (l : list A) (k : nat) x :
  (k < length l)%nat ->
  (take k (delete k l) ++ x :: drop k (delete k l))%list = <[k := x]> l.
Proof.
  revert k. induction l as [|y l IH]; intros [|k] Hk; cbn in *; try lia.
  - done.
  - f_equal. apply IH. lia.
Qed.

Lemma insert_at_delete {A} (l : list A) i x :
  0 <= i < Z.of_nat (length l) ->
  list_insert_at (delete (Z.to_nat i) l) i x = <[Z.to_nat i := x]> l.
Proof.
  intros Hi. unfold list_insert_at.
  destruct (Z.ltb_spec i 0); [lia|].
  rewrite length_delete by (apply lookup_lt_is_Some; lia).
  replace (Z.min i (Z.of_nat (length l - 1))) with i by lia.
  apply take_drop_delete. lia.
Qed.

(** On a table whose every entry is right, whatever the texts, one call
    returns the specification's distance: the recursive calls all read
    the table the outer call was entered with. *)
Lemma levenshtein_distance_fst known a b :
  (forall c d v, known !! key c d = Some v -> v = distance_spec c d) ->
  fst (levenshtein_distance known a b) = distance_spec a b.
Proof.
  intros Hk. revert b. induction a as [|c a IH]; intros b.
  - cbn [levenshtein_distance].
    destruct (known !! key "" b) as [v|] eqn:Hv; [by apply Hk|].
    destruct (String.eqb "" b) eqn:Heq; [by rewrite distance_spec_eqb|].
    cbn [fst]. by rewrite distance_spec_empty_l.
  - cbn [levenshtein_distance].
    destruct (known !! key (String c a) b) as [v|] eqn:Hv; [by apply Hk|].
    destruct (String.eqb (String c a) b) eqn:Heq;
      [by rewrite distance_spec_eqb|].
    destruct b as [|d b].
    { cbn [fst]. rewrite distance_spec_empty_r. change (len "") with 0. lia. }
    rewrite distance_spec_cons. specialize (IH b).
    destruct (levenshtein_distance known a b) as [r known'].
    cbn [fst] in IH. subst r. by destruct (Ascii.eqb c d).
Qed.

Lemma levenshtein_distance_known0 a b :
  fst (levenshtein_distance known0 a b) = distance_spec a b.
Proof.
  apply levenshtein_distance_fst. intros c d v.
  unfold known0. intros [Hk <-]%lookup_singleton_Some.
  destruct c as [|x c]; rewrite ?key_nil, ?key_cons in Hk.
  - injection Hk as <-. done.
  - injection Hk as _ Hk. destruct c; discriminate Hk.
Qed.

(** Texts that hold the separator can share a key: after the call on
    [""] and [",,,"] has stored 3 under [",,,,"], the call on [","] and
    [",,"] finds that entry. The alphabet has no comma. *)
Example comma_collision :
  fst (levenshtein_distance
         (snd (levenshtein_distance known0 "" ",,,")) "," ",,") = 3 /\
  distance_spec "," ",," = 1.
Proof. split; vm_compute; reflexivity. Qed.

(** The two doctests of [levenshtein_distance]. *)
Example lev_cat_cat : fst (levenshtein_distance known0 "cat" "cat") = 0.
Proof. vm_compute. reflexivity. Qed.

Example lev_c_cat : fst (levenshtein_distance known0 "c" "cat") = 2.
Proof. vm_compute. reflexivity. Qed.

(** ** Claims about the distance *)

(** With plain calls only: in every table a run of plain distance calls
    over valid texts reaches, the value [levenshtein_distance] returns for valid [a] and
    [b] is the one the specification's recursion gives (0 for equal
    texts, the other length when one is empty, the distance of the
    suffixes when the first symbols match, one more otherwise); in
    particular the distance of [a] to itself is 0 and the distance of the
    empty text to [b] is the length of [b]. *)
Theorem levenshtein_distance_recursion known a b :
  reachable known -> valid_text a = true -> valid_text b = true ->
  fst (levenshtein_distance known a b) = distance_spec a b /\
  fst (levenshtein_distance known a a) = 0 /\
  fst (levenshtein_distance known "" b) = len b.
Proof.
  intros Hk%reachable_sound Ha%valid_text_no_comma Hb%valid_text_no_comma.
  split; [|split].
  - by apply levenshtein_distance_sound.
  - rewrite <- (distance_spec_refl a). by apply levenshtein_distance_sound.
  - rewrite <- distance_spec_empty_l. by apply levenshtein_distance_sound.
Qed.

Lemma levenshtein_distance_recursion_witness :
  fst (levenshtein_distance (snd (levenshtein_distance known0 "CAT" "COT"))
         "C" "CAT") = distance_spec "C" "CAT" /\
  fst (levenshtein_distance (snd (levenshtein_distance known0 "CAT" "COT"))
         "C" "C") = 0 /\
  fst (levenshtein_distance (snd (levenshtein_distance known0 "CAT" "COT"))
         "" "CAT") = len "CAT".
Proof.
  apply (levenshtein_distance_recursion
           (snd (levenshtein_distance known0 "CAT" "COT")) "C" "CAT").
  - apply reach_call; [apply reach_init | reflexivity | reflexivity].
  - reflexivity.
  - reflexivity.
Defined.

(** With plain calls only: in every reachable table the plain distance of
    valid texts is symmetric, whether the two calls start from the same table or the
    second call runs after the first. *)
Theorem levenshtein_distance_symmetric known a b :
  reachable known -> valid_text a = true -> valid_text b = true ->
  fst (levenshtein_distance known a b) = fst (levenshtein_distance known b a) /\
  fst (levenshtein_distance (snd (levenshtein_distance known a b)) b a) =
  fst (levenshtein_distance known a b).
Proof.
  intros Hr Ha Hb.
  pose proof (reachable_sound _ Hr) as Hk.
  pose proof (reachable_sound _ (reach_call _ _ _ Hr Ha Hb)) as Hk'.
  apply valid_text_no_comma in Ha, Hb.
  destruct (levenshtein_distance_sound known a b Hk Ha Hb) as [-> _].
  destruct (levenshtein_distance_sound known b a Hk Hb Ha) as [-> _].
  destruct (levenshtein_distance_sound _ b a Hk' Hb Ha) as [-> _].
  split; apply distance_spec_sym.
Qed.

Lemma levenshtein_distance_symmetric_witness :
  fst (levenshtein_distance known0 "C" "CAT") =
  fst (levenshtein_distance known0 "CAT" "C") /\
  fst (levenshtein_distance (snd (levenshtein_distance known0 "C" "CAT"))
         "CAT" "C") =
  fst (levenshtein_distance known0 "C" "CAT").
Proof.
  apply (levenshtein_distance_symmetric known0 "C" "CAT").
  - apply reach_init.
  - reflexivity.
  - reflexivity.
Defined.

(** C5: the plain distance is not independent of earlier calls of the
    weighted variant. Both store under the same key in the same table:
    after [modified_levenshtein_distance("A", "C")] has stored 2 under
    ["A,C"], [levenshtein_distance("A", "C")] returns that 2, while on
    the initial table it returns 1. *)
Theorem levenshtein_distance_after_modified :
  fst (levenshtein_distance known0 "A" "C") = 1 /\
  fst (levenshtein_distance
         (snd (modified_levenshtein_distance known0 "A" "C")) "A" "C") = 2.
Proof. split; vm_compute; reflexivity. Qed.

(** C1: the plain distance does not always follow the recursion. Once
    [modified_levenshtein_distance("A", "C")] has stored 2 under ["A,C"]
    in the shared table, [levenshtein_distance("A", "C")] returns 2; the
    first symbols differ and the distance of the two suffixes, both
    empty, is 0 in that table, so the recursion asks for 1. *)
Theorem levenshtein_distance_recursion_after_modified :
  fst (levenshtein_distance
         (snd (modified_levenshtein_distance known0 "A" "C")) "A" "C") = 2 /\
  1 + fst (levenshtein_distance
             (snd (modified_levenshtein_distance known0 "A" "C")) "" "") = 1 /\
  distance_spec "A" "C" = 1.
Proof. repeat split; vm_compute; reflexivity. Qed.

(** C10: the plain distance is not always symmetric. In the table
    [modified_levenshtein_distance("A", "C")] leaves,
    [levenshtein_distance("A", "C")] returns the stored 2 and
    [levenshtein_distance("C", "A")], whose key is absent, returns 1. *)
Theorem levenshtein_distance_asymmetric_after_modified :
  fst (levenshtein_distance
         (snd (modified_levenshtein_distance known0 "A" "C")) "A" "C") = 2 /\
  fst (levenshtein_distance
         (snd (modified_levenshtein_distance known0 "A" "C")) "C" "A") = 1.
Proof. split; vm_compute; reflexivity. Qed.

(** C6, as stated, fails: in the branch where one text is empty the
    weighted variant does not do what the plain one does. On the initial
    table and the texts [""] and ["A"] the plain distance returns 1 and
    stores it, the weighted one returns 65 and stores nothing. *)
Lemma modified_empty_branch_differs :
  ~ (forall known str1 str2,
       branch_of known str1 str2 <> HeadsDiffer ->
       modified_levenshtein_distance known str1 str2 =
       levenshtein_distance known str1 str2).
Proof.
  intros H. specialize (H known0 "" "A").
  assert (fst (modified_levenshtein_distance known0 "" "A") =
          fst (levenshtein_distance known0 "" "A")) as Hfst.
  { rewrite H; [done|]. vm_compute. discriminate. }
  vm_compute in Hfst. discriminate Hfst.
Qed.

(** C6, amended: the weighted variant does exactly what the plain one
    does when the key is cached, when the texts are equal and when the
    first symbols match; where the first symbols differ both add a cost
    to the plain distance of the suffixes, the plain one 1 and the
    weighted one the absolute difference of the two ordinals; where one
    text is empty the weighted variant returns the sum of the ordinals of
    the other and leaves the table as it is. *)
Theorem modified_levenshtein_distance_branches known str1 str2 :
  match branch_of known str1 str2 with
  | Cached | Equal | HeadsMatch =>
    modified_levenshtein_distance known str1 str2 =
    levenshtein_distance known str1 str2
  | HeadsDiffer =>
    levenshtein_distance known str1 str2 = differ_step 1 known str1 str2 /\
    modified_levenshtein_distance known str1 str2 =
    differ_step (Z.abs (ord (head_char str1) - ord (head_char str2)))
      known str1 str2
  | Empty =>
    (str1 = "" \/ str2 = "") /\
    modified_levenshtein_distance known str1 str2 =
    (sum_ord str1 + sum_ord str2, known)
  end.
Proof.
  unfold branch_of, modified_levenshtein_distance, differ_step.
  destruct str1 as [|c1 s1]; cbn [levenshtein_distance head_char tail].
  - destruct (known !! key "" str2); [done|].
    destruct (String.eqb "" str2); [done|]. split; [by left | done].
  - destruct (known !! key (String c1 s1) str2); [done|].
    destruct (String.eqb (String c1 s1) str2); [done|].
    destruct str2 as [|c2 s2]; [split; [by right | done]|].
    cbn [head_char tail].
    destruct (Ascii.eqb c1 c2); [done|].
    by destruct (levenshtein_distance known s1 s2).
Qed.

(** ** Crossover *)

Lemma slice_in {A} (l : list A) p1 p2 :
  0 <= p1 <= p2 -> p2 <= Z.of_nat (length l) ->
  slice l p1 p2 = take (Z.to_nat (p2 - p1)) (drop (Z.to_nat p1) l).
Proof.
  intros H1 H2. unfold slice, slice_bound.
  destruct (Z.ltb_spec p1 0); [lia|]. destruct (Z.ltb_spec p2 0); [lia|].
  by rewrite !Z.min_l by lia.
Qed.

Lemma slice_lookup {A} (l : list A) p1 p2 (j : nat) :
  0 <= p1 -> p2 <= Z.of_nat (length l) -> p1 <= Z.of_nat j < p2 ->
  slice l p1 p2 !! Z.to_nat (Z.of_nat j - p1) = l !! j.
Proof.
  intros H1 H2 Hj. rewrite slice_in by lia.
  rewrite lookup_take_lt by lia. rewrite lookup_drop. f_equal. lia.
Qed.

Lemma slice_length {A} (l : list A) p1 p2 :
  0 <= p1 <= p2 -> p2 <= Z.of_nat (length l) ->
  Z.of_nat (length (slice l p1 p2)) = p2 - p1.
Proof.
  intros H1 H2. rewrite slice_in by lia.
  rewrite length_take, length_drop. lia.
Qed.

(** The loop replaces, at every index it visits, the symbol of each list
    by the saved symbol of the other, and touches no other index. *)
Lemma crossover_loop_spec point1 (temp1 temp2 : list ascii) idxs :
  forall (c1 c2 : list ascii) s,
    Forall (fun i => 0 <= i < Z.of_nat (length c1) /\
                     i < Z.of_nat (length c2) /\
                     0 <= i - point1 < Z.of_nat (length temp1) /\
                     i - point1 < Z.of_nat (length temp2)) idxs ->
    exists c1' c2',
      crossover_loop idxs point1 temp1 temp2 c1 c2 s = Return (c1', c2') s /\
      length c1' = length c1 /\ length c2' = length c2 /\
      forall j : nat,
        c1' !! j = (if decide (Z.of_nat j ∈ idxs)
                    then temp2 !! Z.to_nat (Z.of_nat j - point1)
                    else c1 !! j) /\
        c2' !! j = (if decide (Z.of_nat j ∈ idxs)
                    then temp1 !! Z.to_nat (Z.of_nat j - point1)
                    else c2 !! j).
Proof.
  induction idxs as [|i idxs IH]; intros c1 c2 s Hall.
  - exists c1, c2. repeat split; try done.
    all: destruct (decide _) as [Hin|]; [by apply elem_of_nil in Hin | done].
  - apply Forall_cons in Hall as [(Hi1 & Hi2 & Ht1 & Ht2) Hall].
    destruct (lookup_lt_is_Some_2 temp1 (Z.to_nat (i - point1))) as [x1 Hx1];
      [lia|].
    destruct (lookup_lt_is_Some_2 temp2 (Z.to_nat (i - point1))) as [x2 Hx2];
      [lia|].
    cbn [crossover_loop].
    rewrite (bind_Return _ _ s _ s (delitem_in c1 i s Hi1)).
    rewrite (bind_Return _ _ s _ s (getitem_in temp2 _ x2 s (proj1 Ht1) Hx2)).
    rewrite (bind_Return _ _ s _ s (delitem_in c2 i s (conj (proj1 Hi1) Hi2))).
    rewrite (bind_Return _ _ s _ s (getitem_in temp1 _ x1 s (proj1 Ht1) Hx1)).
    rewrite !insert_at_delete by lia.
    destruct (IH (<[Z.to_nat i := x2]> c1) (<[Z.to_nat i := x1]> c2) s)
      as (c1' & c2' & Hrun & Hl1 & Hl2 & Hlook).
    { rewrite !length_insert. eapply Forall_impl; [exact Hall|]. done. }
    exists c1', c2'. rewrite Hrun, Hl1, Hl2, !length_insert.
    do 3 (split; [done|]). intros j.
    destruct (Hlook j) as [-> ->].
    destruct (decide (Z.of_nat j ∈ idxs)) as [Hin|Hnin].
    { rewrite !decide_True by (apply elem_of_cons; by right). done. }
    destruct (decide (Z.of_nat j = i)) as [Hji|Hji].
    + rewrite !decide_True by (apply elem_of_cons; by left).
      assert (j = Z.to_nat i) as -> by lia.
      rewrite !list_lookup_insert_eq, Z2Nat.id by lia. done.
    + rewrite !decide_False by (by intros [?|?]%elem_of_cons).
      rewrite !list_lookup_insert_ne by lia. done.
Qed.

Lemma sort_points_min_max point_a point_b :
  sort_points point_a point_b = (Z.min point_a point_b, Z.max point_a point_b).
Proof.
  unfold sort_points. destruct (Z.ltb_spec point_a point_b); f_equal; lia.
Qed.

Lemma in_segment_range point1 point2 (i : nat) :
  Z.of_nat i ∈ range point1 point2 <-> in_segment point1 point2 i = true.
Proof.
  unfold range, in_segment. rewrite elem_of_seqZ, andb_true_iff.
  rewrite Z.leb_le, Z.ltb_lt. lia.
Qed.

(** What [crossover] does whenever the shorter individual is not empty. *)
Lemma crossover_spec str1 str2 s :
  1 <= shorter str1 str2 ->
  exists point_a point_b str1' str2',
    randint 0 (shorter str1 str2 - 1) s = Return point_a (advance 1 s) /\
    randint 0 (shorter str1 str2 - 1) (advance 1 s) =
      Return point_b (advance 2 s) /\
    0 <= point_a <= shorter str1 str2 - 1 /\
    0 <= point_b <= shorter str1 str2 - 1 /\
    crossover str1 str2 s = Return (str1', str2') (advance 2 s) /\
    fitness str1' = fitness str1 /\ fitness str2' = fitness str2 /\
    length (chars str1') = length (chars str1) /\
    length (chars str2') = length (chars str2) /\
    (forall i : nat,
       chars str1' !! i =
       if in_segment (Z.min point_a point_b) (Z.max point_a point_b) i
       then chars str2 !! i else chars str1 !! i) /\
    (forall i : nat,
       chars str2' !! i =
       if in_segment (Z.min point_a point_b) (Z.max point_a point_b) i
       then chars str1 !! i else chars str2 !! i).
Proof.
  intros Hlen.
  set (L := shorter str1 str2) in *.
  set (pa := randint_value 0 (L - 1) s).
  set (pb := randint_value 0 (L - 1) (advance 1 s)).
  assert (0 <= pa <= L - 1) as Hpa by (apply randint_value_range; lia).
  assert (0 <= pb <= L - 1) as Hpb by (apply randint_value_range; lia).
  assert (randint 0 (L - 1) s = Return pa (advance 1 s)) as Ha
    by (apply randint_Return; lia).
  assert (randint 0 (L - 1) (advance 1 s) = Return pb (advance 2 s)) as Hb.
  { rewrite randint_Return by lia. by rewrite advance_advance. }
  assert (L <= llen str1 /\ L <= llen str2) as [HL1 HL2]
    by (unfold L, shorter; lia).
  set (p1 := Z.min pa pb). set (p2 := Z.max pa pb).
  destruct (crossover_loop_spec p1
              (slice (chars str1) p1 p2) (slice (chars str2) p1 p2)
              (range p1 p2) (chars str1) (chars str2) (advance 2 s))
    as (c1 & c2 & Hrun & Hl1 & Hl2 & Hlook).
  { apply Forall_forall. intros i Hi. unfold range in Hi.
    apply elem_of_seqZ in Hi. unfold llen in *.
    rewrite !slice_length by lia. lia. }
  exists pa, pb, (set_chars str1 c1), (set_chars str2 c2).
  do 4 (split; [done|]). split.
  { unfold crossover.
    replace (if llen str1 <? llen str2 then llen str1 else llen str2) with L
      by (unfold L, shorter; destruct (Z.ltb_spec (llen str1) (llen str2)); lia).
    rewrite (bind_Return _ _ _ _ _ Ha), (bind_Return _ _ _ _ _ Hb).
    rewrite sort_points_min_max. fold p1 p2.
    by rewrite (bind_Return _ _ _ _ _ Hrun). }
  do 4 (split; [done|]). unfold llen in *.
  split; intros i; destruct (Hlook i) as [Hi1 Hi2]; cbn [chars set_chars];
    fold p1 p2.
  - rewrite Hi1. destruct (in_segment p1 p2 i) eqn:Hseg.
    + rewrite decide_True by (by apply in_segment_range).
      apply andb_prop in Hseg as [?%Z.leb_le ?%Z.ltb_lt].
      apply slice_lookup; lia.
    + rewrite decide_False; [done|].
      rewrite in_segment_range, Hseg. discriminate.
  - rewrite Hi2. destruct (in_segment p1 p2 i) eqn:Hseg.
    + rewrite decide_True by (by apply in_segment_range).
      apply andb_prop in Hseg as [?%Z.leb_le ?%Z.ltb_lt].
      apply slice_lookup; lia.
    + rewrite decide_False; [done|].
      rewrite in_segment_range, Hseg. discriminate.
Qed.

Lemma in_segment_empty point i : in_segment point point i = false.
Proof.
  unfold in_segment.
  destruct (Z.leb_spec point (Z.of_nat i)), (Z.ltb_spec (Z.of_nat i) point);
    cbn; try done; lia.
Qed.

Lemma Message_eq (m m' : Message) :
  fitness m' = fitness m -> (forall i, chars m' !! i = chars m !! i) -> m' = m.
Proof.
  destruct m as [cs f], m' as [cs' f']. cbn. intros -> Hcs.
  f_equal. by apply list_eq.
Qed.

(** C9: when the shorter individual has at least two symbols, [crossover]
    draws [point_a] and [point_b] in [[0, length-1]], returns without
    raising, and with [point1 <= point2] the two draws in ascending order
    the results keep their lengths, hold at every index of
    [[point1, point2)] the symbol the other individual had there and at
    every other index (the tail of the longer one included) the symbol
    they had before; with [point1 = point2] both are unchanged. *)
Theorem crossover_swaps_segment str1 str2 s :
  2 <= shorter str1 str2 ->
  exists point_a point_b str1' str2',
    randint 0 (shorter str1 str2 - 1) s = Return point_a (advance 1 s) /\
    randint 0 (shorter str1 str2 - 1) (advance 1 s) =
      Return point_b (advance 2 s) /\
    0 <= point_a <= shorter str1 str2 - 1 /\
    0 <= point_b <= shorter str1 str2 - 1 /\
    crossover str1 str2 s = Return (str1', str2') (advance 2 s) /\
    let point1 := Z.min point_a point_b in
    let point2 := Z.max point_a point_b in
    point1 <= point2 /\
    length (chars str1') = length (chars str1) /\
    length (chars str2') = length (chars str2) /\
    (forall i : nat,
       chars str1' !! i =
       if in_segment point1 point2 i then chars str2 !! i
       else chars str1 !! i) /\
    (forall i : nat,
       chars str2' !! i =
       if in_segment point1 point2 i then chars str1 !! i
       else chars str2 !! i) /\
    (point1 = point2 -> str1' = str1 /\ str2' = str2).
Proof.
  intros Hlen.
  destruct (crossover_spec str1 str2 s) as
    (pa & pb & r1 & r2 & Ha & Hb & Hpa & Hpb & Hrun & Hf1 & Hf2 &
     Hl1 & Hl2 & Hc1 & Hc2); [lia|].
  exists pa, pb, r1, r2. do 5 (split; [done|]). cbn zeta.
  split; [lia|]. do 4 (split; [done|]).
  intros Heq. split; apply Message_eq; try done; intros i.
  - by rewrite Hc1, Heq, in_segment_empty.
  - by rewrite Hc2, Heq, in_segment_empty.
Qed.

Lemma crossover_swaps_segment_witness :
  2 <= shorter (message_of "ABCDEFGHIJKLM" None) (message_of "RSTUVWXYZ" None) /\
  exists point_a point_b str1' str2',
    randint 0 (shorter (message_of "ABCDEFGHIJKLM" None)
                 (message_of "RSTUVWXYZ" None) - 1) (tape_of [2; 6]%N) =
      Return point_a (advance 1 (tape_of [2; 6]%N)) /\
    randint 0 (shorter (message_of "ABCDEFGHIJKLM" None)
                 (message_of "RSTUVWXYZ" None) - 1)
      (advance 1 (tape_of [2; 6]%N)) =
      Return point_b (advance 2 (tape_of [2; 6]%N)) /\
    0 <= point_a <= shorter (message_of "ABCDEFGHIJKLM" None)
                      (message_of "RSTUVWXYZ" None) - 1 /\
    0 <= point_b <= shorter (message_of "ABCDEFGHIJKLM" None)
                      (message_of "RSTUVWXYZ" None) - 1 /\
    crossover (message_of "ABCDEFGHIJKLM" None) (message_of "RSTUVWXYZ" None)
      (tape_of [2; 6]%N) =
      Return (str1', str2') (advance 2 (tape_of [2; 6]%N)) /\
    let point1 := Z.min point_a point_b in
    let point2 := Z.max point_a point_b in
    point1 <= point2 /\
    length (chars str1') = length (chars (message_of "ABCDEFGHIJKLM" None)) /\
    length (chars str2') = length (chars (message_of "RSTUVWXYZ" None)) /\
    (forall i : nat,
       chars str1' !! i =
       if in_segment point1 point2 i
       then chars (message_of "RSTUVWXYZ" None) !! i
       else chars (message_of "ABCDEFGHIJKLM" None) !! i) /\
    (forall i : nat,
       chars str2' !! i =
       if in_segment point1 point2 i
       then chars (message_of "ABCDEFGHIJKLM" None) !! i
       else chars (message_of "RSTUVWXYZ" None) !! i) /\
    (point1 = point2 ->
     str1' = message_of "ABCDEFGHIJKLM" None /\
     str2' = message_of "RSTUVWXYZ" None).
Proof.
  assert (2 <= shorter (message_of "ABCDEFGHIJKLM" None)
                 (message_of "RSTUVWXYZ" None)) as Hlen
    by (vm_compute; discriminate).
  split; [exact Hlen|].
  exact (crossover_swaps_segment (message_of "ABCDEFGHIJKLM" None)
           (message_of "RSTUVWXYZ" None) (tape_of [2; 6]%N) Hlen).
Defined.

(** The commented-out call at the end of the source, with draws 2 and 6. *)
Example crossover_example :
  crossover (message_of "ABCDEFGHIJKLM" None) (message_of "RSTUVWXYZ" None)
    (tape_of [2; 6]%N) =
  Return (message_of "ABTUVWGHIJKLM" None, message_of "RSCDEFXYZ" None)
    (advance 2 (tape_of [2; 6]%N)).
Proof. vm_compute. reflexivity. Qed.

(** C2, as stated, fails: when the shorter individual is empty,
    [crossover] does not return; the first draw, over the empty range
    [[0, -1]], raises [ValueError]. *)
Lemma crossover_empty_raises :
  ~ (forall str1 str2 s,
       shorter str1 str2 < 2 ->
       exists s', crossover str1 str2 s = Return (str1, str2) s').
Proof.
  intros H.
  destruct (H (message_of "" None) (message_of "AB" None) (tape_of []))
    as [s' Hs']; [by vm_compute|].
  vm_compute in Hs'. discriminate Hs'.
Qed.

(** C2, amended: when the shorter individual has exactly one symbol,
    [crossover] returns both individuals as they were, without raising
    (both points are drawn from [[0, 0]]); when it has none, the first
    draw raises [ValueError]. *)
Theorem crossover_short str1 str2 s :
  shorter str1 str2 < 2 ->
  crossover str1 str2 s =
  if shorter str1 str2 =? 0 then Raise ValueError
  else Return (str1, str2) (advance 2 s).
Proof.
  intros Hlen.
  assert (0 <= shorter str1 str2) as H0 by (unfold shorter, llen; lia).
  destruct (Z.eqb_spec (shorter str1 str2) 0) as [Hz|Hnz].
  - unfold crossover.
    replace (if llen str1 <? llen str2 then llen str1 else llen str2) with 0
      by (unfold shorter in Hz; destruct (Z.ltb_spec (llen str1) (llen str2)); lia).
    apply bind_Raise, randint_Raise. lia.
  - destruct (crossover_spec str1 str2 s) as
      (pa & pb & r1 & r2 & _ & _ & Hpa & Hpb & Hrun & Hf1 & Hf2 &
       _ & _ & Hc1 & Hc2); [lia|].
    rewrite Hrun. assert (pa = pb) as -> by lia.
    rewrite Z.min_id, Z.max_id in Hc1, Hc2.
    f_equal. f_equal; apply Message_eq; try done; intros i.
    + by rewrite Hc1, in_segment_empty.
    + by rewrite Hc2, in_segment_empty.
Qed.

Lemma crossover_short_witness :
  shorter (message_of "A" None) (message_of "RSTUVWXYZ" None) < 2 /\
  crossover (message_of "A" None) (message_of "RSTUVWXYZ" None)
    (tape_of [8; 3]%N) =
  Return (message_of "A" None, message_of "RSTUVWXYZ" None)
    (advance 2 (tape_of [8; 3]%N)).
Proof.
  assert (shorter (message_of "A" None) (message_of "RSTUVWXYZ" None) < 2)
    as Hlen by reflexivity.
  split; [exact Hlen|].
  exact (crossover_short (message_of "A" None) (message_of "RSTUVWXYZ" None)
           (tape_of [8; 3]%N) Hlen).
Defined.

(** ** Mutation *)

Lemma bind_mret {A B} (a : A) (f : A -> M B) s : (mret a ≫= f) s = f a s.
Proof. reflexivity. Qed.

Lemma bind_random {B} (f : Q -> M B) s :
  (random_random ≫= f) s = f (random_value s) (advance 1 s).
Proof. reflexivity. Qed.

Lemma bind_assoc {A B C} (m : M A) (f : A -> M B) (g : B -> M C) s :
  ((m ≫= f) ≫= g) s = (m ≫= fun a => f a ≫= g) s.
Proof. unfold mbind, M_bind. by destruct (m s). Qed.

(** The position draw of a mutation raises on an empty individual. *)
Lemma position_draw_empty {B} (message : Message) (f : Z -> M B) s :
  chars message = [] ->
  (randint 0 (llen message - 1) ≫= f) s = Raise ValueError.
Proof.
  intros Hm. apply bind_Raise, randint_Raise. unfold llen. rewrite Hm. done.
Qed.

(** A mutation kind that fires on an empty individual raises. *)
Ltac raise_on_empty := rewrite bind_assoc; by apply position_draw_empty.

(** C3, as stated, fails: a mutation kind that fires on an empty
    individual is not skipped; its position draw raises [ValueError]. *)
Lemma mutate_text_empty_raises :
  ~ (forall message prob_ins prob_del prob_sub s,
       chars message = [] ->
       exists s', mutate_text message prob_ins prob_del prob_sub s =
                  Return message s').
Proof.
  intros H.
  destruct (H (message_of "" None) (1 # 20)%Q (1 # 20)%Q (1 # 20)%Q
              (tape_of []) eq_refl) as [s' Hs'].
  vm_compute in Hs'. discriminate Hs'.
Qed.

(** C3, amended: there is no length-0 guard. On an empty individual each
    of the three tests is made in turn and the first one that succeeds
    raises [ValueError] from its position draw over [[0, -1]]; only when
    none succeeds is the individual returned, unchanged. The same holds
    for an individual of one symbol that the deletion of the same call
    has emptied: a substitution that then fires raises [ValueError]. *)
Theorem mutate_text_zero_length f prob_ins prob_del prob_sub s :
  mutate_text {| chars := []; fitness := f |} prob_ins prob_del prob_sub s =
  (if fires prob_ins s || fires prob_del (advance 1 s)
      || fires prob_sub (advance 2 s)
   then Raise ValueError
   else Return {| chars := []; fitness := f |} (advance 3 s)) /\
  (forall c,
     fires prob_ins s = false -> fires prob_del (advance 1 s) = true ->
     mutate_text {| chars := [c]; fitness := f |} prob_ins prob_del prob_sub s =
     if fires prob_sub (advance 3 s) then Raise ValueError
     else Return {| chars := []; fitness := f |} (advance 4 s)).
Proof.
  split.
  - unfold mutate_text. rewrite bind_random. fold (fires prob_ins s).
    destruct (fires prob_ins s); cbn [orb]; cbv beta iota.
    { raise_on_empty. }
    rewrite bind_mret, bind_random. fold (fires prob_del (advance 1 s)).
    destruct (fires prob_del (advance 1 s)); cbn [orb]; cbv beta iota.
    { raise_on_empty. }
    rewrite bind_mret, bind_random, advance_advance. cbn [Nat.add].
    fold (fires prob_sub (advance 2 s)).
    destruct (fires prob_sub (advance 2 s)); cbv beta iota.
    { raise_on_empty. }
    rewrite bind_mret, advance_advance. done.
  - intros c Hins Hdel.
    unfold mutate_text. rewrite bind_random. fold (fires prob_ins s).
    rewrite Hins. cbv beta iota. rewrite bind_mret, bind_random.
    fold (fires prob_del (advance 1 s)). rewrite Hdel. cbv beta iota.
    rewrite bind_assoc.
    rewrite (bind_Return _ _ _ _ _ (randint_Return 0 _ _ (Z.le_refl 0))).
    assert (randint_value 0 0 (advance 1 (advance 1 s)) = 0) as ->.
    { pose proof (randint_value_range 0 0 (advance 1 (advance 1 s))
                    (Z.le_refl 0)) as Hr. lia. }
    rewrite bind_assoc.
    rewrite (bind_Return _ _ _ _ _ (delitem_in [c] 0 _ ltac:(cbn; lia))).
    rewrite bind_mret, bind_random, !advance_advance. cbn [Nat.add].
    change (set_chars {| chars := [c]; fitness := f |}
              (delete (Z.to_nat 0) [c]))
      with {| chars := []; fitness := f |}.
    fold (fires prob_sub (advance 3 s)).
    destruct (fires prob_sub (advance 3 s)); cbv beta iota.
    { raise_on_empty. }
    by rewrite bind_mret.
Qed.

Lemma mutate_text_zero_length_witness :
  fires (1 # 20)%Q (tape_of [4503599627370496; 0; 0; 0]%N) = false /\
  fires (1 # 20)%Q (advance 1 (tape_of [4503599627370496; 0; 0; 0]%N)) = true /\
  mutate_text {| chars := ["A"%char]; fitness := Some 1 |}
    (1 # 20)%Q (1 # 20)%Q (1 # 20)%Q
    (tape_of [4503599627370496; 0; 0; 0]%N) = Raise ValueError.
Proof.
  assert (fires (1 # 20)%Q (tape_of [4503599627370496; 0; 0; 0]%N) = false)
    as Hins by reflexivity.
  assert (fires (1 # 20)%Q
            (advance 1 (tape_of [4503599627370496; 0; 0; 0]%N)) = true)
    as Hdel by reflexivity.
  split; [exact Hins|]. split; [exact Hdel|].
  exact (proj2 (mutate_text_zero_length (Some 1) (1 # 20)%Q (1 # 20)%Q
                  (1 # 20)%Q (tape_of [4503599627370496; 0; 0; 0]%N))
           "A"%char Hins Hdel).
Defined.

(** ** The fitness attribute *)

Section Keeps.

Variable f : Fitness.

Lemma keeps_mret (a : Message) : fitness a = f -> keeps f (mret a).
Proof. by intros Ha s. Qed.

Lemma keeps_bind_any {A} (m : M A) (k : A -> M Message) :
  (forall a, keeps f (k a)) -> keeps f (m ≫= k).
Proof.
  intros Hk s. unfold mbind, M_bind.
  destruct (m s) as [a s'|e]; [apply Hk | done].
Qed.

Lemma keeps_bind (m : M Message) (k : Message -> M Message) :
  keeps f m -> (forall a, fitness a = f -> keeps f (k a)) -> keeps f (m ≫= k).
Proof.
  intros Hm Hk s. unfold mbind, M_bind.
  specialize (Hm s). destruct (m s) as [a s'|e]; [by apply Hk | done].
Qed.

End Keeps.

Lemma mutate_text_keeps message prob_ins prob_del prob_sub :
  keeps (fitness message) (mutate_text message prob_ins prob_del prob_sub).
Proof.
  unfold mutate_text.
  apply keeps_bind_any; intros r1. apply keeps_bind.
  { destruct (Qltb r1 prob_ins); [|by apply keeps_mret].
    do 2 (apply keeps_bind_any; intros ?). by apply keeps_mret. }
  intros m1 Hm1. apply keeps_bind_any; intros r2. apply keeps_bind.
  { destruct (Qltb r2 prob_del); [|by apply keeps_mret].
    do 2 (apply keeps_bind_any; intros ?). by apply keeps_mret. }
  intros m2 Hm2. apply keeps_bind_any; intros r3. apply keeps_bind.
  { destruct (Qltb r3 prob_sub); [|by apply keeps_mret].
    do 3 (apply keeps_bind_any; intros ?). by apply keeps_mret. }
  intros m3 Hm3. by apply keeps_mret.
Qed.

(** C8, as stated, fails: an operator that changes the symbols does not
    reset the fitness attribute. A mutation turns ["AB"] with fitness 3
    into ["CB"] with fitness 3, and a crossover of ["ABCD"] with fitness 3
    and ["WXYZ"] with fitness 4 returns ["AXYD"] and ["WBCZ"] with the
    same two values. *)
Lemma operators_do_not_invalidate :
  ~ (forall message prob_ins prob_del prob_sub s message' s',
       mutate_text message prob_ins prob_del prob_sub s = Return message' s' ->
       chars message' <> chars message -> fitness message' = None) /\
  ~ (forall str1 str2 s str1' str2' s',
       crossover str1 str2 s = Return (str1', str2') s' ->
       chars str1' <> chars str1 -> fitness str1' = None).
Proof.
  split; intros H.
  - specialize (H (message_of "AB" (Some 3)) (1 # 20)%Q (1 # 20)%Q (1 # 20)%Q
                  (tape_of [0; 1; 5; 0; 1; 0; 0; 3]%N)
                  (message_of "CB" (Some 3))
                  (advance 8 (tape_of [0; 1; 5; 0; 1; 0; 0; 3]%N))).
    assert (Some 3 = None :> Fitness) as Habs; [|discriminate Habs].
    apply H; [vm_compute; reflexivity | vm_compute; discriminate].
  - specialize (H (message_of "ABCD" (Some 3)) (message_of "WXYZ" (Some 4))
                  (tape_of [1; 3]%N)
                  (message_of "AXYD" (Some 3)) (message_of "WBCZ" (Some 4))
                  (advance 2 (tape_of [1; 3]%N))).
    assert (Some 3 = None :> Fitness) as Habs; [|discriminate Habs].
    apply H; [vm_compute; reflexivity | vm_compute; discriminate].
Qed.

(** C8, amended: neither operator touches the fitness attribute. Whenever
    [mutate_text] or [crossover] returns, every individual it returns has
    the fitness attribute it had on entry, whether or not its symbols
    changed. *)
Theorem operators_keep_fitness :
  (forall message prob_ins prob_del prob_sub s,
     match mutate_text message prob_ins prob_del prob_sub s with
     | Return message' _ => fitness message' = fitness message
     | Raise _ => True
     end) /\
  (forall str1 str2 s,
     match crossover str1 str2 s with
     | Return (str1', str2') _ =>
       fitness str1' = fitness str1 /\ fitness str2' = fitness str2
     | Raise _ => True
     end).
Proof.
  split.
  - intros message prob_ins prob_del prob_sub s.
    apply mutate_text_keeps.
  - intros str1 str2 s. unfold crossover, mbind, M_bind.
    destruct (randint _ _ s) as [pa s1|]; [|done].
    destruct (randint _ _ s1) as [pb s2|]; [|done].
    destruct (sort_points pa pb) as [p1 p2].
    destruct (crossover_loop _ _ _ _ _ _ s2) as [[cs1 cs2] s3|]; done.
Qed.

(** ** Message construction *)

Lemma random_choice_VALID_CHARS s :
  exists c, random_choice VALID_CHARS s = Return c (advance 1 s).
Proof.
  unfold random_choice. change (len VALID_CHARS =? 0) with false.
  change (len VALID_CHARS - 1) with 26. cbv beta iota.
  pose proof (randint_value_range 0 26 s ltac:(lia)) as Hr.
  rewrite (bind_Return _ _ _ _ _ (randint_Return 0 26 s ltac:(lia))).
  destruct (lookup_lt_is_Some_2 (list_ascii_of_string VALID_CHARS)
              (Z.to_nat (randint_value 0 26 s))) as [c Hc].
  { change (length (list_ascii_of_string VALID_CHARS)) with 27%nat. lia. }
  exists c. apply getitem_in; [lia | done].
Qed.

Lemma append_random_Return k : forall self s,
  exists cs, append_random k self s = Return cs (advance k s) /\
             length cs = (length self + k)%nat.
Proof.
  induction k as [|k IH]; intros self s.
  - exists self. split; [by destruct s | lia].
  - destruct (random_choice_VALID_CHARS s) as [c Hc].
    destruct (IH (self ++ [c])%list (advance 1 s)) as (cs & Hcs & Hlen).
    exists cs. cbn [append_random]. rewrite (bind_Return _ _ _ _ _ Hc), Hcs.
    rewrite advance_advance, Nat.add_1_r. split; [done|].
    rewrite Hlen, length_app. cbn. lia.
Qed.

(** A non-empty starting string is copied verbatim, and [get_text] gives
    it back. *)
Lemma Message_init_round_trip c str min_length max_length s :
  Message_init (Some (String c str)) min_length max_length s =
    Return (message_of (String c str) None) s /\
  get_text (message_of (String c str) None) = String c str.
Proof.
  split; [reflexivity|].
  unfold get_text, message_of. cbn [chars].
  apply string_of_list_ascii_of_string.
Qed.

(** C4: the empty string is not copied. [Message("")] takes the branch
    of the missing argument: with the default bounds it returns an
    individual of 4 to 30 random symbols, so [get_text] does not give
    the empty string back. *)
Theorem Message_init_empty_string s :
  exists message s',
    Message_init (Some "") 4 30 s = Return message s' /\
    4 <= llen message <= 30 /\
    get_text message <> "".
Proof.
  pose proof (randint_value_range 4 30 s ltac:(lia)) as Hr.
  destruct (append_random_Return (Z.to_nat (randint_value 4 30 s)) []
              (advance 1 s)) as (cs & Hcs & Hlen).
  exists {| chars := cs; fitness := None |}, (advance (Z.to_nat (randint_value 4 30 s)) (advance 1 s)).
  split; [|split].
  - unfold Message_init. cbn [truthy].
    rewrite (bind_Return _ _ _ _ _ (randint_Return 4 30 s ltac:(lia))).
    by rewrite (bind_Return _ _ _ _ _ Hcs).
  - unfold llen. cbn [chars]. rewrite Hlen. cbn [length]. lia.
  - unfold get_text. cbn [chars]. destruct cs as [|c cs]; [|done].
    cbn in Hlen. lia.
Qed.

(** ** The symbol draw of a mutation *)

Lemma randint_outcomes_sound a b s d s' :
  randint a b s = Return d s' -> d ∈ randint_outcomes a b.
Proof.
  unfold randint. destruct (Z.ltb_spec b a) as [|Hab]; [done|].
  intros [= <- _]. unfold randint_outcomes. apply elem_of_seqZ.
  pose proof (Z.mod_pos_bound (Z.of_N (tape s (pos s))) (b - a + 1)). lia.
Qed.

Lemma randint_outcomes_complete a b d :
  d ∈ randint_outcomes a b ->
  randint a b (tape_of [Z.to_N (d - a)]) =
  Return d (advance 1 (tape_of [Z.to_N (d - a)])).
Proof.
  unfold randint_outcomes. intros Hd%elem_of_seqZ.
  unfold randint. destruct (Z.ltb_spec b a) as [|Hab]; [lia|].
  unfold mbind, M_bind, next_raw, mret, M_ret. cbn [tape_of tape pos nth].
  rewrite Z2N.id by lia. rewrite Z.mod_small by lia. f_equal. lia.
Qed.

(** C7: the symbol draw is not uniform. [random.randint(0, 27)] has the
    28 outcomes 0 to 27; the subscript [d - 1] is -1 for outcome 0, which
    is outside [[0, 26]] and denotes the last symbol, so the space is
    produced by the two outcomes 0 and 27 and every letter, such as [A],
    by one. *)
Theorem draw_symbol_not_uniform :
  length (randint_outcomes 0 (len VALID_CHARS)) = 28%nat /\
  (forall s, List.filter (yields " " s) (randint_outcomes 0 (len VALID_CHARS))
             = [0; 27]) /\
  (forall s, List.filter (yields "A" s) (randint_outcomes 0 (len VALID_CHARS))
             = [1]) /\
  draw_symbol (tape_of [0]%N) = Return " "%char (advance 1 (tape_of [0]%N)) /\
  draw_symbol (tape_of [27]%N) = Return " "%char (advance 1 (tape_of [27]%N)) /\
  ~ (0 <= 0 - 1 <= len VALID_CHARS - 1).
Proof.
  split; [reflexivity|].
  split; [intros s; vm_compute; reflexivity|].
  split; [intros s; vm_compute; reflexivity|].
  split; [vm_compute; reflexivity|].
  split; [vm_compute; reflexivity|].
  change (len VALID_CHARS) with 27. lia.
Qed.

(** * Further properties of the code *)

(** ** The distance as a function of the two texts *)

Lemma len_cons c s : len (String c s) = 1 + len s.
Proof. unfold len. cbn [String.length]. lia. Qed.

Lemma distance_spec_lower a b : Z.abs (len a - len b) <= distance_spec a b.
Proof.
  revert b. induction a as [|c a IH]; intros [|d b].
  - done.
  - rewrite distance_spec_empty_l. change (len "") with 0. unfold len. lia.
  - rewrite distance_spec_empty_r. change (len "") with 0. unfold len. lia.
  - rewrite distance_spec_cons, !len_cons. specialize (IH b).
    destruct (Ascii.eqb c d); lia.
Qed.

Lemma distance_spec_upper a b : distance_spec a b <= Z.max (len a) (len b).
Proof.
  revert b. induction a as [|c a IH]; intros [|d b].
  - done.
  - rewrite distance_spec_empty_l. lia.
  - rewrite distance_spec_empty_r. lia.
  - rewrite distance_spec_cons, !len_cons. specialize (IH b).
    destruct (Ascii.eqb c d); lia.
Qed.

Lemma distance_spec_zero a b : distance_spec a b = 0 -> a = b.
Proof.
  revert b. induction a as [|c a IH]; intros [|d b].
  - done.
  - rewrite distance_spec_empty_l, len_cons. unfold len. intros H. lia.
  - rewrite distance_spec_empty_r, len_cons. unfold len. intros H. lia.
  - rewrite distance_spec_cons. pose proof (distance_spec_lower a b).
    destruct (Ascii.eqb_spec c d) as [->|]; [|intros H'; lia].
    by intros ->%IH.
Qed.

Lemma distance_spec_triangle a b c :
  distance_spec a c <= distance_spec a b + distance_spec b c.
Proof.
  revert b c. induction a as [|x a IH]; intros b c.
  - rewrite !distance_spec_empty_l.
    pose proof (distance_spec_lower b c). lia.
  - destruct c as [|z c].
    { rewrite !distance_spec_empty_r.
      pose proof (distance_spec_lower (String x a) b). lia. }
    destruct b as [|y b].
    { rewrite distance_spec_empty_l, distance_spec_empty_r.
      pose proof (distance_spec_upper (String x a) (String z c)).
      pose proof (len_cons x a). pose proof (len_cons z c).
      unfold len in *. lia. }
    rewrite !distance_spec_cons. specialize (IH b c).
    destruct (Ascii.eqb_spec x z) as [Hxz|Hxz],
             (Ascii.eqb_spec x y) as [Hxy|Hxy],
             (Ascii.eqb_spec y z) as [Hyz|Hyz]; try lia; congruence.
Qed.

(** X1: [evaluate_text] returns 0 exactly when the text of the individual
    is the goal. *)
Theorem evaluate_text_zero_iff known message goal_text :
  reachable known ->
  valid_text (get_text message) = true -> valid_text goal_text = true ->
  fst (evaluate_text known message goal_text) = 0 <->
  get_text message = goal_text.
Proof.
  intros Hk%reachable_sound Hm%valid_text_no_comma Hg%valid_text_no_comma.
  unfold evaluate_text.
  destruct (levenshtein_distance_sound known _ _ Hk Hm Hg) as [-> _].
  split; [apply distance_spec_zero | intros ->; apply distance_spec_refl].
Qed.

Lemma evaluate_text_zero_iff_witness :
  fst (evaluate_text known0 (message_of "CAT" None) "CAT") = 0 <->
  get_text (message_of "CAT" None) = "CAT".
Proof.
  apply (evaluate_text_zero_iff known0 (message_of "CAT" None) "CAT").
  - apply reach_init.
  - reflexivity.
  - reflexivity.
Defined.

(** X2: the plain distance lies between the difference of the two
    lengths and the longer of the two lengths. *)
Theorem levenshtein_distance_bounds known a b :
  reachable known -> valid_text a = true -> valid_text b = true ->
  Z.abs (len a - len b) <= fst (levenshtein_distance known a b)
    <= Z.max (len a) (len b).
Proof.
  intros Hk%reachable_sound Ha%valid_text_no_comma Hb%valid_text_no_comma.
  destruct (levenshtein_distance_sound known a b Hk Ha Hb) as [-> _].
  split; [apply distance_spec_lower | apply distance_spec_upper].
Qed.

Lemma levenshtein_distance_bounds_witness :
  Z.abs (len "CAT" - len "SKYNET")
    <= fst (levenshtein_distance known0 "CAT" "SKYNET")
    <= Z.max (len "CAT") (len "SKYNET").
Proof.
  apply (levenshtein_distance_bounds known0 "CAT" "SKYNET").
  - apply reach_init.
  - reflexivity.
  - reflexivity.
Defined.

(** X3: the plain distance satisfies the triangle inequality. *)
Theorem levenshtein_distance_triangle known a b c :
  reachable known ->
  valid_text a = true -> valid_text b = true -> valid_text c = true ->
  fst (levenshtein_distance known a c) <=
  fst (levenshtein_distance known a b) + fst (levenshtein_distance known b c).
Proof.
  intros Hk%reachable_sound Ha%valid_text_no_comma Hb%valid_text_no_comma
         Hc%valid_text_no_comma.
  destruct (levenshtein_distance_sound known a c Hk Ha Hc) as [-> _].
  destruct (levenshtein_distance_sound known a b Hk Ha Hb) as [-> _].
  destruct (levenshtein_distance_sound known b c Hk Hb Hc) as [-> _].
  apply distance_spec_triangle.
Qed.

Lemma levenshtein_distance_triangle_witness :
  fst (levenshtein_distance known0 "CAT" "DOG") <=
  fst (levenshtein_distance known0 "CAT" "COT") +
  fst (levenshtein_distance known0 "COT" "DOG").
Proof.
  apply (levenshtein_distance_triangle known0 "CAT" "COT" "DOG").
  - apply reach_init.
  - reflexivity.
  - reflexivity.
  - reflexivity.
Defined.

(** ** The table only grows *)

Lemma key_length a b :
  String.length (key a b) = S (String.length a + String.length b).
Proof.
  induction a as [|c a IH]; rewrite ?key_nil, ?key_cons; cbn [String.length].
  - done.
  - by rewrite IH.
Qed.

Lemma key_length_lt c a d b :
  (String.length (key a b) < String.length (key (String c a) (String d b)))%nat.
Proof. rewrite !key_length. cbn [String.length]. lia. Qed.

Lemma key_ne_length k a b :
  (String.length (key a b) < String.length k)%nat -> key a b <> k.
Proof. intros Hlt <-. lia. Qed.

(** A call stores nothing under a key longer than its own. *)
Lemma levenshtein_distance_new_keys known a b k :
  known !! k = None ->
  (String.length (key a b) < String.length k)%nat ->
  snd (levenshtein_distance known a b) !! k = None.
Proof.
  revert known b. induction a as [|c a IH]; intros known b Hk Hlen.
  - cbn [levenshtein_distance].
    destruct (known !! key "" b); [done|].
    destruct (String.eqb "" b); cbn [snd];
      by rewrite lookup_insert_ne by by apply key_ne_length.
  - cbn [levenshtein_distance].
    destruct (known !! key (String c a) b); [done|].
    destruct (String.eqb (String c a) b).
    { cbn [snd]. by rewrite lookup_insert_ne by by apply key_ne_length. }
    destruct b as [|d b].
    { cbn [snd]. by rewrite lookup_insert_ne by by apply key_ne_length. }
    pose proof (key_length_lt c a d b) as Hlt.
    specialize (IH known b Hk ltac:(lia)).
    destruct (levenshtein_distance known a b) as [r known'].
    cbn [snd] in IH.
    destruct (Ascii.eqb c d); cbn [snd];
      by rewrite lookup_insert_ne by by apply key_ne_length.
Qed.

Lemma levenshtein_distance_subseteq known a b :
  known ⊆ snd (levenshtein_distance known a b).
Proof.
  revert known b. induction a as [|c a IH]; intros known b.
  - cbn [levenshtein_distance].
    destruct (known !! key "" b) eqn:Hn; [done|].
    destruct (String.eqb "" b); cbn [snd]; by apply insert_subseteq.
  - cbn [levenshtein_distance].
    destruct (known !! key (String c a) b) eqn:Hn; [done|].
    destruct (String.eqb (String c a) b).
    { cbn [snd]. by apply insert_subseteq. }
    destruct b as [|d b].
    { cbn [snd]. by apply insert_subseteq. }
    pose proof (levenshtein_distance_new_keys known a b _ Hn
                  (key_length_lt c a d b)) as Hnew.
    specialize (IH known b).
    destruct (levenshtein_distance known a b) as [r known'].
    cbn [snd] in IH, Hnew.
    destruct (Ascii.eqb c d); cbn [snd];
      (etrans; [exact IH | by apply insert_subseteq]).
Qed.

Lemma modified_levenshtein_distance_subseteq known a b :
  known ⊆ snd (modified_levenshtein_distance known a b).
Proof.
  unfold modified_levenshtein_distance.
  destruct (known !! key a b) eqn:Hn; [done|].
  destruct (String.eqb a b).
  { cbn [snd]. by apply insert_subseteq. }
  destruct a as [|c a]; [done|]. destruct b as [|d b]; [done|].
  pose proof (levenshtein_distance_new_keys known a b _ Hn
                (key_length_lt c a d b)) as Hnew.
  pose proof (levenshtein_distance_subseteq known a b) as Hsub.
  destruct (levenshtein_distance known a b) as [r known'].
  cbn [snd] in Hsub, Hnew.
  destruct (Ascii.eqb c d); cbn [snd];
    (etrans; [exact Hsub | by apply insert_subseteq]).
Qed.

Lemma levenshtein_distance_stored known a b :
  snd (levenshtein_distance known a b) !! key a b =
  Some (fst (levenshtein_distance known a b)).
Proof.
  destruct a as [|c a]; cbn [levenshtein_distance].
  - destruct (known !! key "" b) eqn:Hn; [done|].
    destruct (String.eqb "" b); cbn [fst snd]; apply lookup_insert_eq.
  - destruct (known !! key (String c a) b) eqn:Hn; [done|].
    destruct (String.eqb (String c a) b);
      [cbn [fst snd]; apply lookup_insert_eq|].
    destruct b as [|d b]; [cbn [fst snd]; apply lookup_insert_eq|].
    destruct (levenshtein_distance known a b) as [r known'].
    destruct (Ascii.eqb c d); cbn [fst snd]; apply lookup_insert_eq.
Qed.

(** X4: neither distance function removes or changes an entry of the
    table: every key present before a call is present after it, with the
    value it had. *)
Theorem known_entries_kept known a b k v :
  known !! k = Some v ->
  snd (levenshtein_distance known a b) !! k = Some v /\
  snd (modified_levenshtein_distance known a b) !! k = Some v.
Proof.
  intros Hk. split.
  - exact (lookup_weaken _ _ _ _ Hk (levenshtein_distance_subseteq known a b)).
  - exact (lookup_weaken _ _ _ _ Hk
             (modified_levenshtein_distance_subseteq known a b)).
Qed.

Lemma known_entries_kept_witness :
  snd (levenshtein_distance known0 "CAT" "COT") !! "," = Some 0 /\
  snd (modified_levenshtein_distance known0 "CAT" "COT") !! "," = Some 0.
Proof.
  apply (known_entries_kept known0 "CAT" "COT" "," 0). reflexivity.
Defined.

(** X5: a call stores its result under its key, so a call on the same
    pair from any table that still holds the entries of the first call
    returns the same value and leaves the table as it is. *)
Theorem levenshtein_distance_repeat known known' a b :
  snd (levenshtein_distance known a b) ⊆ known' ->
  snd (levenshtein_distance known a b) !! key a b =
    Some (fst (levenshtein_distance known a b)) /\
  known' !! key a b = Some (fst (levenshtein_distance known a b)) /\
  levenshtein_distance known' a b =
    (fst (levenshtein_distance known a b), known').
Proof.
  intros Hsub.
  pose proof (levenshtein_distance_stored known a b) as Hst.
  pose proof (lookup_weaken _ _ _ _ Hst Hsub) as Hk.
  split; [exact Hst|]. split; [exact Hk|].
  clear Hst Hsub.
  destruct a as [|c a]; cbn [levenshtein_distance] in *; by rewrite Hk.
Qed.

Lemma levenshtein_distance_repeat_witness :
  snd (levenshtein_distance known0 "CAT" "COT") !! key "CAT" "COT" =
    Some (fst (levenshtein_distance known0 "CAT" "COT")) /\
  snd (levenshtein_distance known0 "CAT" "COT") !! key "CAT" "COT" =
    Some (fst (levenshtein_distance known0 "CAT" "COT")) /\
  levenshtein_distance (snd (levenshtein_distance known0 "CAT" "COT"))
    "CAT" "COT" =
  (fst (levenshtein_distance known0 "CAT" "COT"),
   snd (levenshtein_distance known0 "CAT" "COT")).
Proof.
  apply (levenshtein_distance_repeat known0
           (snd (levenshtein_distance known0 "CAT" "COT")) "CAT" "COT").
  reflexivity.
Defined.

(** ** Rules for composing computations *)

Section Rules.

Context {A B : Type}.

Lemma ensures_mret (P : A -> Prop) a : P a -> ensures P (mret a).
Proof. by intros Ha s. Qed.

Lemma ensures_bind (P : A -> Prop) (Q : B -> Prop) (m : M A) (k : A -> M B) :
  ensures P m -> (forall a, P a -> ensures Q (k a)) -> ensures Q (m ≫= k).
Proof.
  intros Hm Hk s. unfold mbind, M_bind. specialize (Hm s).
  destruct (m s) as [a s'|e]; [by apply Hk | done].
Qed.

Lemma ensures_True (m : M A) : ensures (fun _ => True) m.
Proof. intros s. by destruct (m s). Qed.

Lemma always_returns_mret (P : A -> Prop) a : P a -> always_returns P (mret a).
Proof. intros Ha s. by exists a, s. Qed.

Lemma always_returns_bind (P : A -> Prop) (Q : B -> Prop) (m : M A)
    (k : A -> M B) :
  always_returns P m -> (forall a, P a -> always_returns Q (k a)) ->
  always_returns Q (m ≫= k).
Proof.
  intros Hm Hk s. destruct (Hm s) as (a & s' & Hrun & Ha).
  destruct (Hk a Ha s') as (b & s'' & Hrun' & Hb).
  exists b, s''. by rewrite (bind_Return _ _ _ _ _ Hrun).
Qed.

End Rules.

Lemma ensures_randint a b : ensures (fun d => a <= d <= b) (randint a b).
Proof.
  intros s. unfold randint. destruct (Z.ltb_spec b a); [done|].
  apply (randint_value_range a b s). lia.
Qed.

Lemma always_returns_randint a b :
  a <= b -> always_returns (fun d => a <= d <= b) (randint a b).
Proof.
  intros Hab s. exists (randint_value a b s), (advance 1 s).
  split; [by apply randint_Return | by apply randint_value_range].
Qed.

Lemma always_returns_random : always_returns (fun _ => True) random_random.
Proof. intros s. by exists (random_value s), (advance 1 s). Qed.

Lemma always_returns_delitem {A} (l : list A) i :
  0 <= i < Z.of_nat (length l) ->
  always_returns (fun l' => l' = delete (Z.to_nat i) l) (delitem l i).
Proof. intros Hi s. exists (delete (Z.to_nat i) l), s. by rewrite delitem_in. Qed.

Lemma ensures_delitem {A} (l : list A) i :
  ensures (fun l' => exists j, l' = delete j l /\ (j < length l)%nat)
    (delitem l i).
Proof.
  intros s. unfold delitem, subscript.
  destruct (_ && _) eqn:Hin; [|done].
  apply andb_prop in Hin as [?%Z.leb_le ?%Z.ltb_lt].
  eexists. split; [done | lia].
Qed.

(** ** The symbols a mutation draws *)

Lemma VALID_CHARS_valid : valid_chars (list_ascii_of_string VALID_CHARS).
Proof. unfold valid_chars. cbn. repeat constructor. Qed.

Lemma getitem_elem {A} (l : list A) i s x s' :
  getitem l i s = Return x s' -> x ∈ l /\ s' = s.
Proof.
  unfold getitem. destruct (subscript _ i) as [j|]; [|done].
  destruct (l !! j) as [y|] eqn:Hy; [|done].
  intros [= <- <-]. split; [|done]. by apply list_elem_of_lookup_2 in Hy.
Qed.

Lemma symbol_of_draw_Return d s :
  0 <= d <= len VALID_CHARS ->
  exists c, symbol_of_draw d s = Return c s /\ char_in c VALID_CHARS = true.
Proof.
  intros Hd. unfold symbol_of_draw.
  change (len VALID_CHARS) with 27 in Hd.
  assert (exists j, subscript (Z.of_nat (length (list_ascii_of_string VALID_CHARS)))
                      (d - 1) = Some j /\ (j < 27)%nat) as (j & Hj & Hlt).
  { change (length (list_ascii_of_string VALID_CHARS)) with 27%nat.
    unfold subscript. destruct (Z.ltb_spec (d - 1) 0).
    - exists 26%nat. assert (d = 0) as -> by lia.
      split; [reflexivity | lia].
    - exists (Z.to_nat (d - 1)).
      destruct (Z.leb_spec 0 (d - 1)); [|lia].
      destruct (Z.ltb_spec (d - 1) (Z.of_nat 27)); [|lia].
      split; [done | lia]. }
  destruct (lookup_lt_is_Some_2 (list_ascii_of_string VALID_CHARS) j)
    as [c Hc]; [done|].
  exists c. unfold getitem. rewrite Hj, Hc. split; [done|].
  pose proof VALID_CHARS_valid as Hall. unfold valid_chars in Hall.
  rewrite Forall_lookup in Hall. by apply (Hall j).
Qed.

Lemma always_returns_draw_symbol :
  always_returns (fun c => char_in c VALID_CHARS = true) draw_symbol.
Proof.
  intros s. unfold draw_symbol.
  pose proof (randint_value_range 0 (len VALID_CHARS) s ltac:(done)) as Hr.
  destruct (symbol_of_draw_Return _ (advance 1 s) Hr) as (c & Hc & Hv).
  exists c, (advance 1 s).
  by rewrite (bind_Return _ _ _ _ _
               (randint_Return 0 (len VALID_CHARS) s ltac:(done))).
Qed.

Lemma ensures_draw_symbol :
  ensures (fun c => char_in c VALID_CHARS = true) draw_symbol.
Proof.
  intros s. destruct (always_returns_draw_symbol s) as (c & s' & -> & Hc).
  done.
Qed.

(** ** Inserting into and deleting from a list of symbols *)

Lemma length_list_insert_at {A} (l : list A) i x :
  length (list_insert_at l i x) = S (length l).
Proof.
  unfold list_insert_at. rewrite length_app. cbn [length].
  rewrite length_take, length_drop. lia.
Qed.

Lemma valid_chars_insert_at l i x :
  valid_chars l -> char_in x VALID_CHARS = true ->
  valid_chars (list_insert_at l i x).
Proof.
  intros Hl Hx. unfold valid_chars, list_insert_at.
  apply Forall_app. split; [by apply Forall_take|].
  apply Forall_cons. split; [done | by apply Forall_drop].
Qed.

Lemma valid_chars_delete l j : valid_chars l -> valid_chars (delete j l).
Proof. apply Forall_delete. Qed.

Lemma valid_text_chars cs :
  valid_text (string_of_list_ascii cs) = true <-> valid_chars cs.
Proof.
  unfold valid_chars. induction cs as [|c cs IH]; cbn [string_of_list_ascii valid_text].
  - split; [constructor | done].
  - rewrite andb_true_iff, Forall_cons, IH. done.
Qed.

(** ** More on mutation *)

Lemma random_value_nonneg s : (0 <= random_value s)%Q.
Proof.
  unfold random_value, Qle. cbn [Qnum Qden].
  rewrite Z.mul_1_r, Z.mul_0_l. apply N2Z.is_nonneg.
Qed.

Lemma fires_nonpositive prob s : (prob <= 0)%Q -> fires prob s = false.
Proof.
  intros Hp. unfold fires, Qltb. apply negb_false_iff, Qle_bool_iff.
  eapply Qle_trans; [exact Hp | apply random_value_nonneg].
Qed.

(** X6: with the three probabilities at most 0 no mutation kind fires:
    [mutate_text] returns the individual as it is, empty or not, after
    three draws. *)
Theorem mutate_text_no_fire message prob_ins prob_del prob_sub s :
  (prob_ins <= 0)%Q -> (prob_del <= 0)%Q -> (prob_sub <= 0)%Q ->
  mutate_text message prob_ins prob_del prob_sub s =
  Return message (advance 3 s).
Proof.
  intros Hins Hdel Hsub. unfold mutate_text.
  rewrite bind_random. fold (fires prob_ins s).
  rewrite (fires_nonpositive _ _ Hins). cbv beta iota.
  rewrite bind_mret, bind_random. fold (fires prob_del (advance 1 s)).
  rewrite (fires_nonpositive _ _ Hdel). cbv beta iota.
  rewrite bind_mret, bind_random, advance_advance. cbn [Nat.add].
  fold (fires prob_sub (advance 2 s)).
  rewrite (fires_nonpositive _ _ Hsub). cbv beta iota.
  rewrite bind_mret, advance_advance. done.
Qed.

Lemma mutate_text_no_fire_witness :
  mutate_text (message_of "CAT" (Some 2)) 0%Q 0%Q 0%Q (tape_of [0; 0; 0]%N) =
  Return (message_of "CAT" (Some 2)) (advance 3 (tape_of [0; 0; 0]%N)).
Proof.
  apply (mutate_text_no_fire (message_of "CAT" (Some 2)) 0%Q 0%Q 0%Q
           (tape_of [0; 0; 0]%N)); discriminate.
Defined.

Lemma mutate_text_valid_chars message prob_ins prob_del prob_sub :
  valid_chars (chars message) ->
  ensures (fun message' => valid_chars (chars message'))
    (mutate_text message prob_ins prob_del prob_sub).
Proof.
  intros Hm. unfold mutate_text.
  eapply ensures_bind; [apply ensures_True|]. intros r1 _.
  eapply ensures_bind with (P := fun m => valid_chars (chars m)).
  { destruct (Qltb r1 prob_ins); [|by apply ensures_mret].
    eapply ensures_bind; [apply ensures_True|]. intros insert_loc _.
    eapply ensures_bind; [apply ensures_draw_symbol|]. intros c Hc.
    apply ensures_mret. by apply valid_chars_insert_at. }
  intros m1 Hm1.
  eapply ensures_bind; [apply ensures_True|]. intros r2 _.
  eapply ensures_bind with (P := fun m => valid_chars (chars m)).
  { destruct (Qltb r2 prob_del); [|by apply ensures_mret].
    eapply ensures_bind; [apply ensures_True|]. intros del_loc _.
    eapply ensures_bind; [apply ensures_delitem|]. intros cs (j & -> & _).
    apply ensures_mret. by apply valid_chars_delete. }
  intros m2 Hm2.
  eapply ensures_bind; [apply ensures_True|]. intros r3 _.
  eapply ensures_bind with (P := fun m => valid_chars (chars m)).
  { destruct (Qltb r3 prob_sub); [|by apply ensures_mret].
    eapply ensures_bind; [apply ensures_True|]. intros sub_loc _.
    eapply ensures_bind; [apply ensures_draw_symbol|]. intros c Hc.
    eapply ensures_bind; [apply ensures_delitem|]. intros cs (j & -> & _).
    apply ensures_mret. apply valid_chars_insert_at; [|done].
    by apply valid_chars_delete. }
  intros m3 Hm3. by apply ensures_mret.
Qed.

(** X7: mutation keeps an individual inside the alphabet: when the text
    of the individual is over [VALID_CHARS], so is the text of the
    individual [mutate_text] returns. *)
Theorem mutate_text_valid message prob_ins prob_del prob_sub s :
  valid_text (get_text message) = true ->
  match mutate_text message prob_ins prob_del prob_sub s with
  | Return message' _ => valid_text (get_text message') = true
  | Raise _ => True
  end.
Proof.
  intros Hm%valid_text_chars.
  pose proof (mutate_text_valid_chars message prob_ins prob_del prob_sub Hm s)
    as Hrun.
  destruct (mutate_text _ _ _ _ s); [|done]. by apply valid_text_chars.
Qed.

Lemma mutate_text_valid_witness :
  match mutate_text (message_of "AB" None) (1 # 20)%Q (1 # 20)%Q (1 # 20)%Q
          (tape_of [0; 1; 5; 0; 1; 0; 0; 3]%N) with
  | Return message' _ => valid_text (get_text message') = true
  | Raise _ => True
  end.
Proof.
  apply (mutate_text_valid (message_of "AB" None) (1 # 20)%Q (1 # 20)%Q
           (1 # 20)%Q (tape_of [0; 1; 5; 0; 1; 0; 0; 3]%N)).
  reflexivity.
Defined.

Lemma mutate_text_length message prob_ins prob_del prob_sub :
  2 <= llen message ->
  always_returns
    (fun message' => llen message - 1 <= llen message' <= llen message + 1)
    (mutate_text message prob_ins prob_del prob_sub).
Proof.
  intros Hlen. unfold mutate_text.
  eapply always_returns_bind; [apply always_returns_random|]. intros r1 _.
  eapply always_returns_bind
    with (P := fun m => llen message <= llen m <= llen message + 1).
  { destruct (Qltb r1 prob_ins); [|apply always_returns_mret; lia].
    eapply always_returns_bind; [apply always_returns_randint; lia|].
    intros insert_loc _.
    eapply always_returns_bind; [apply always_returns_draw_symbol|].
    intros c _. apply always_returns_mret.
    unfold llen, set_chars. cbn [chars].
    rewrite length_list_insert_at. unfold llen in Hlen. lia. }
  intros m1 Hm1.
  eapply always_returns_bind; [apply always_returns_random|]. intros r2 _.
  eapply always_returns_bind
    with (P := fun m => llen message - 1 <= llen m <= llen message + 1).
  { destruct (Qltb r2 prob_del); [|apply always_returns_mret; lia].
    eapply always_returns_bind; [apply always_returns_randint; lia|].
    intros del_loc Hdel.
    eapply always_returns_bind;
      [apply always_returns_delitem; unfold llen in *; lia|].
    intros cs ->. apply always_returns_mret.
    unfold llen, set_chars in *. cbn [chars].
    rewrite length_delete by (apply lookup_lt_is_Some; lia). lia. }
  intros m2 Hm2.
  eapply always_returns_bind; [apply always_returns_random|]. intros r3 _.
  eapply always_returns_bind
    with (P := fun m => llen message - 1 <= llen m <= llen message + 1).
  { destruct (Qltb r3 prob_sub); [|apply always_returns_mret; lia].
    eapply always_returns_bind; [apply always_returns_randint; lia|].
    intros sub_loc Hsub.
    eapply always_returns_bind; [apply always_returns_draw_symbol|].
    intros c _.
    eapply always_returns_bind;
      [apply always_returns_delitem; unfold llen in *; lia|].
    intros cs ->. apply always_returns_mret.
    unfold llen, set_chars in *. cbn [chars].
    rewrite length_list_insert_at.
    rewrite length_delete by (apply lookup_lt_is_Some; lia). lia. }
  intros m3 Hm3. by apply always_returns_mret.
Qed.

(** X8: on an individual of at least two symbols [mutate_text] never
    raises, and the individual it returns is at most one symbol shorter
    or longer. *)
Theorem mutate_text_returns message prob_ins prob_del prob_sub s :
  2 <= llen message ->
  exists message' s',
    mutate_text message prob_ins prob_del prob_sub s = Return message' s' /\
    llen message - 1 <= llen message' <= llen message + 1.
Proof.
  intros Hlen.
  exact (mutate_text_length message prob_ins prob_del prob_sub Hlen s).
Qed.

Lemma mutate_text_returns_witness :
  exists message' s',
    mutate_text (message_of "AB" None) 1%Q 1%Q 1%Q (tape_of []) =
      Return message' s' /\
    llen (message_of "AB" None) - 1 <= llen message'
      <= llen (message_of "AB" None) + 1.
Proof.
  apply (mutate_text_returns (message_of "AB" None) 1%Q 1%Q 1%Q (tape_of [])).
  discriminate.
Defined.

(** ** More on crossover *)

Lemma crossover_Raise_empty str1 str2 s :
  shorter str1 str2 < 1 -> crossover str1 str2 s = Raise ValueError.
Proof.
  intros Hlen. unfold crossover. apply bind_Raise, randint_Raise.
  unfold shorter in Hlen.
  destruct (Z.ltb_spec (llen str1) (llen str2)); lia.
Qed.

(** What a returning [crossover] has done, in terms of the crossing
    points. *)
Lemma crossover_Return_inv str1 str2 s r1 r2 s' :
  crossover str1 str2 s = Return (r1, r2) s' ->
  1 <= shorter str1 str2 /\ s' = advance 2 s /\
  0 <= fst (crossing_points str1 str2 s)
    <= snd (crossing_points str1 str2 s) /\
  snd (crossing_points str1 str2 s) <= shorter str1 str2 - 1 /\
  fitness r1 = fitness str1 /\ fitness r2 = fitness str2 /\
  length (chars r1) = length (chars str1) /\
  length (chars r2) = length (chars str2) /\
  (forall i : nat,
     chars r1 !! i =
     if in_segment (fst (crossing_points str1 str2 s))
          (snd (crossing_points str1 str2 s)) i
     then chars str2 !! i else chars str1 !! i) /\
  (forall i : nat,
     chars r2 !! i =
     if in_segment (fst (crossing_points str1 str2 s))
          (snd (crossing_points str1 str2 s)) i
     then chars str1 !! i else chars str2 !! i).
Proof.
  intros Hrun.
  assert (1 <= shorter str1 str2) as Hlen.
  { destruct (Z.le_gt_cases 1 (shorter str1 str2)) as [|Hlt]; [done|].
    rewrite crossover_Raise_empty in Hrun by lia. discriminate Hrun. }
  destruct (crossover_spec str1 str2 s Hlen) as
    (pa & pb & q1 & q2 & Ha & Hb & Hpa & Hpb & Hrun' & Hf1 & Hf2 &
     Hl1 & Hl2 & Hc1 & Hc2).
  rewrite Hrun in Hrun'. injection Hrun' as -> -> ->.
  rewrite randint_Return in Ha by lia. injection Ha as <-.
  rewrite randint_Return in Hb by lia. injection Hb as <-.
  unfold crossing_points. rewrite sort_points_min_max. cbn [fst snd].
  split; [done|]. split; [done|]. split; [lia|]. split; [lia|]. done.
Qed.

Lemma randint_value_tape a b s t :
  tape t (pos t) = tape s (pos s) -> randint_value a b t = randint_value a b s.
Proof. unfold randint_value. by intros ->. Qed.

Lemma crossing_points_tape str1 str2 r1 r2 s t :
  shorter r1 r2 = shorter str1 str2 ->
  tape t (pos t) = tape s (pos s) ->
  tape t (S (pos t)) = tape s (S (pos s)) ->
  crossing_points r1 r2 t = crossing_points str1 str2 s.
Proof.
  intros Hsh H0 H1. unfold crossing_points. rewrite Hsh.
  by rewrite (randint_value_tape _ _ s t H0),
             (randint_value_tape _ _ (advance 1 s) (advance 1 t) H1).
Qed.

Lemma shorter_lengths str1 str2 r1 r2 :
  length (chars r1) = length (chars str1) ->
  length (chars r2) = length (chars str2) ->
  shorter r1 r2 = shorter str1 str2.
Proof. unfold shorter, llen. by intros -> ->. Qed.

(** X9: crossover undoes itself: applied to the two individuals it
    returned, with the same two draws, it returns the two individuals it
    was given. *)
Theorem crossover_twice str1 str2 s r1 r2 s' t :
  crossover str1 str2 s = Return (r1, r2) s' ->
  tape t (pos t) = tape s (pos s) ->
  tape t (S (pos t)) = tape s (S (pos s)) ->
  crossover r1 r2 t = Return (str1, str2) (advance 2 t).
Proof.
  intros Hrun H0 H1.
  destruct (crossover_Return_inv _ _ _ _ _ _ Hrun) as
    (Hlen & _ & _ & _ & Hf1 & Hf2 & Hl1 & Hl2 & Hc1 & Hc2).
  pose proof (shorter_lengths _ _ _ _ Hl1 Hl2) as Hsh.
  destruct (crossover_spec r1 r2 t ltac:(lia)) as
    (pa & pb & q1 & q2 & _ & _ & _ & _ & Hrun2 & _).
  destruct (crossover_Return_inv _ _ _ _ _ _ Hrun2) as
    (_ & _ & _ & _ & Hg1 & Hg2 & _ & _ & Hd1 & Hd2).
  rewrite (crossing_points_tape str1 str2 r1 r2 s t Hsh H0 H1) in Hd1, Hd2.
  rewrite Hrun2. f_equal. f_equal; apply Message_eq; try congruence; intros i.
  - rewrite Hd1, Hc1, Hc2. by destruct (in_segment _ _ i).
  - rewrite Hd2, Hc1, Hc2. by destruct (in_segment _ _ i).
Qed.

Lemma crossover_twice_witness :
  crossover (message_of "ABTUVWGHIJKLM" None) (message_of "RSCDEFXYZ" None)
    (tape_of [2; 6]%N) =
  Return (message_of "ABCDEFGHIJKLM" None, message_of "RSTUVWXYZ" None)
    (advance 2 (tape_of [2; 6]%N)).
Proof.
  apply (crossover_twice (message_of "ABCDEFGHIJKLM" None)
           (message_of "RSTUVWXYZ" None) (tape_of [2; 6]%N)
           (message_of "ABTUVWGHIJKLM" None) (message_of "RSCDEFXYZ" None)
           (advance 2 (tape_of [2; 6]%N)) (tape_of [2; 6]%N)).
  - vm_compute. reflexivity.
  - reflexivity.
  - reflexivity.
Defined.

(** X10: crossover treats its two arguments alike: with the arguments
    exchanged and the same generator it returns the same two individuals,
    exchanged. *)
Theorem crossover_exchange str1 str2 s r1 r2 s' :
  crossover str1 str2 s = Return (r1, r2) s' ->
  crossover str2 str1 s = Return (r2, r1) s'.
Proof.
  intros Hrun.
  destruct (crossover_Return_inv _ _ _ _ _ _ Hrun) as
    (Hlen & -> & _ & _ & Hf1 & Hf2 & Hl1 & Hl2 & Hc1 & Hc2).
  assert (shorter str2 str1 = shorter str1 str2) as Hsh
    by (unfold shorter; lia).
  destruct (crossover_spec str2 str1 s ltac:(lia)) as
    (pa & pb & q1 & q2 & _ & _ & _ & _ & Hrun2 & _).
  destruct (crossover_Return_inv _ _ _ _ _ _ Hrun2) as
    (_ & _ & _ & _ & Hg1 & Hg2 & _ & _ & Hd1 & Hd2).
  rewrite (crossing_points_tape str1 str2 str2 str1 s s Hsh eq_refl eq_refl)
    in Hd1, Hd2.
  rewrite Hrun2. f_equal. f_equal; apply Message_eq; try congruence; intros i.
  - by rewrite Hd1, Hc2.
  - by rewrite Hd2, Hc1.
Qed.

Lemma crossover_exchange_witness :
  crossover (message_of "RSTUVWXYZ" None) (message_of "ABCDEFGHIJKLM" None)
    (tape_of [2; 6]%N) =
  Return (message_of "RSCDEFXYZ" None, message_of "ABTUVWGHIJKLM" None)
    (advance 2 (tape_of [2; 6]%N)).
Proof.
  apply (crossover_exchange (message_of "ABCDEFGHIJKLM" None)
           (message_of "RSTUVWXYZ" None) (tape_of [2; 6]%N)).
  vm_compute. reflexivity.
Defined.

(** X11: crossover never reaches the last symbol of the shorter
    individual: every index from [length - 1] on, the whole tail of the
    longer individual included, keeps its symbol in both results. *)
Theorem crossover_keeps_from_last str1 str2 s r1 r2 s' (i : nat) :
  crossover str1 str2 s = Return (r1, r2) s' ->
  shorter str1 str2 - 1 <= Z.of_nat i ->
  chars r1 !! i = chars str1 !! i /\ chars r2 !! i = chars str2 !! i.
Proof.
  intros Hrun Hi.
  destruct (crossover_Return_inv _ _ _ _ _ _ Hrun) as
    (_ & _ & Hp1 & Hp2 & _ & _ & _ & _ & Hc1 & Hc2).
  rewrite Hc1, Hc2.
  assert (in_segment (fst (crossing_points str1 str2 s))
            (snd (crossing_points str1 str2 s)) i = false) as ->; [|done].
  unfold in_segment. apply andb_false_iff. right. apply Z.ltb_ge. lia.
Qed.

Lemma crossover_keeps_from_last_witness :
  chars (message_of "ABTUVWGHIJKLM" None) !! 8%nat =
    chars (message_of "ABCDEFGHIJKLM" None) !! 8%nat /\
  chars (message_of "RSCDEFXYZ" None) !! 8%nat =
    chars (message_of "RSTUVWXYZ" None) !! 8%nat.
Proof.
  apply (crossover_keeps_from_last (message_of "ABCDEFGHIJKLM" None)
           (message_of "RSTUVWXYZ" None) (tape_of [2; 6]%N)
           (message_of "ABTUVWGHIJKLM" None) (message_of "RSCDEFXYZ" None)
           (advance 2 (tape_of [2; 6]%N)) 8%nat).
  - vm_compute. reflexivity.
  - vm_compute. discriminate.
Defined.

(** X12: crossover keeps both individuals inside the alphabet: when the
    two texts are over [VALID_CHARS], so are the texts of the two
    individuals it returns. *)
Theorem crossover_valid str1 str2 s r1 r2 s' :
  crossover str1 str2 s = Return (r1, r2) s' ->
  valid_text (get_text str1) = true -> valid_text (get_text str2) = true ->
  valid_text (get_text r1) = true /\ valid_text (get_text r2) = true.
Proof.
  intros Hrun H1%valid_text_chars H2%valid_text_chars.
  destruct (crossover_Return_inv _ _ _ _ _ _ Hrun) as
    (_ & _ & _ & _ & _ & _ & _ & _ & Hc1 & Hc2).
  unfold valid_chars in H1, H2. rewrite Forall_lookup in H1, H2.
  split; apply valid_text_chars, Forall_lookup; intros i x Hx.
  - rewrite Hc1 in Hx. destruct (in_segment _ _ i); eauto.
  - rewrite Hc2 in Hx. destruct (in_segment _ _ i); eauto.
Qed.

Lemma crossover_valid_witness :
  valid_text (get_text (message_of "ABTUVWGHIJKLM" None)) = true /\
  valid_text (get_text (message_of "RSCDEFXYZ" None)) = true.
Proof.
  apply (crossover_valid (message_of "ABCDEFGHIJKLM" None)
           (message_of "RSTUVWXYZ" None) (tape_of [2; 6]%N)
           (message_of "ABTUVWGHIJKLM" None) (message_of "RSCDEFXYZ" None)
           (advance 2 (tape_of [2; 6]%N))).
  - vm_compute. reflexivity.
  - reflexivity.
  - reflexivity.
Defined.

(** ** More on the construction of individuals *)

Lemma random_choice_valid s c s' :
  random_choice VALID_CHARS s = Return c s' -> char_in c VALID_CHARS = true.
Proof.
  unfold random_choice. change (len VALID_CHARS =? 0) with false.
  cbv beta iota. unfold mbind, M_bind.
  destruct (randint _ _ s) as [d s1|]; [|done].
  intros [Hc _]%getitem_elem.
  pose proof VALID_CHARS_valid as Hall. unfold valid_chars in Hall.
  rewrite Forall_forall in Hall. by apply Hall.
Qed.

Lemma append_random_valid k : forall self s,
  valid_chars self ->
  exists cs, append_random k self s = Return cs (advance k s) /\
             length cs = (length self + k)%nat /\ valid_chars cs.
Proof.
  induction k as [|k IH]; intros self s Hself.
  - exists self. split; [by destruct s|]. split; [lia | done].
  - destruct (random_choice_VALID_CHARS s) as [c Hc].
    pose proof (random_choice_valid _ _ _ Hc) as Hv.
    destruct (IH (self ++ [c])%list (advance 1 s)) as (cs & Hcs & Hlen & Hval).
    { apply Forall_app. split; [done|]. by apply Forall_singleton. }
    exists cs. cbn [append_random]. rewrite (bind_Return _ _ _ _ _ Hc), Hcs.
    rewrite advance_advance, Nat.add_1_r. split; [done|]. split; [|done].
    rewrite Hlen, length_app. cbn. lia.
Qed.

(** X13: without a starting string, or with the empty one, [Message]
    raises [ValueError] when [max_length < min_length]; otherwise it
    draws a length [d] in [[min_length, max_length]] and returns, after
    [d] more draws, an individual of [d] symbols (none when [d] is
    negative), all of them in [VALID_CHARS], with the fitness unset. *)
Theorem Message_init_random starting_string min_length max_length s :
  truthy starting_string = false ->
  (max_length < min_length ->
   Message_init starting_string min_length max_length s = Raise ValueError) /\
  (min_length <= max_length ->
   let d := randint_value min_length max_length s in
   exists message,
     Message_init starting_string min_length max_length s =
       Return message (advance (S (Z.to_nat d)) s) /\
     min_length <= d <= max_length /\
     llen message = Z.max 0 d /\
     valid_text (get_text message) = true /\
     fitness message = None).
Proof.
  intros Hfalsy. unfold Message_init. rewrite Hfalsy. split.
  - intros Hlt. by apply bind_Raise, randint_Raise.
  - intros Hle. cbv zeta.
    set (d := randint_value min_length max_length s).
    pose proof (randint_value_range min_length max_length s Hle) as Hd.
    destruct (append_random_valid (Z.to_nat d) [] (advance 1 s))
      as (cs & Hcs & Hlen & Hval); [constructor|].
    exists {| chars := cs; fitness := None |}.
    rewrite (bind_Return _ _ _ _ _ (randint_Return _ _ s Hle)).
    fold d. rewrite (bind_Return _ _ _ _ _ Hcs).
    rewrite advance_advance, Nat.add_1_r.
    split; [done|]. split; [done|]. split; [|split; [|done]].
    + unfold llen. cbn [chars]. rewrite Hlen. cbn [length]. lia.
    + by apply valid_text_chars.
Qed.

Lemma Message_init_random_witness :
  let d := randint_value 4 30 (tape_of [1; 2; 3; 4; 5; 6]%N) in
  exists message,
    Message_init None 4 30 (tape_of [1; 2; 3; 4; 5; 6]%N) =
      Return message (advance (S (Z.to_nat d)) (tape_of [1; 2; 3; 4; 5; 6]%N)) /\
    4 <= d <= 30 /\
    llen message = Z.max 0 d /\
    valid_text (get_text message) = true /\
    fitness message = None.
Proof.
  apply (proj2 (Message_init_random None 4 30 (tape_of [1; 2; 3; 4; 5; 6]%N)
                  eq_refl)).
  discriminate.
Defined.

(** X14: a non-empty starting string is copied: [Message] returns,
    without a draw, an individual with the fitness unset whose text is
    the string, and whose symbols are those of any individual with that
    text. *)
Theorem Message_init_text text min_length max_length s :
  text <> "" ->
  exists message,
    Message_init (Some text) min_length max_length s = Return message s /\
    get_text message = text /\
    fitness message = None /\
    (forall other, get_text other = text -> chars message = chars other).
Proof.
  intros Htext. destruct text as [|c text]; [done|].
  exists (message_of (String c text) None).
  split; [reflexivity|]. split; [|split; [reflexivity|]].
  - unfold get_text, message_of. cbn [chars].
    apply string_of_list_ascii_of_string.
  - intros other <-. unfold get_text, message_of. cbn [chars].
    apply list_ascii_of_string_of_list_ascii.
Qed.

Lemma Message_init_text_witness :
  exists message,
    Message_init (Some "CAT") 4 30 (tape_of []) = Return message (tape_of []) /\
    get_text message = "CAT" /\
    fitness message = None /\
    (forall other, get_text other = "CAT" -> chars message = chars other).
Proof.
  apply (Message_init_text "CAT" 4 30 (tape_of [])). discriminate.
Defined.

(** ** The check of the goal *)

Lemma char_in_VALID_CHARS c : char_in c VALID_CHARS = upper_or_space c.
Proof. destruct c as [[] [] [] [] [] [] [] []]; reflexivity. Qed.

Lemma valid_text_upper_or_space goal :
  valid_text goal = all_upper_or_space goal.
Proof.
  induction goal as [|c goal IH]; [done|].
  cbn [valid_text all_upper_or_space]. by rewrite IH, char_in_VALID_CHARS.
Qed.

(** X15: the check of the goal at the entry point returns exactly for the
    texts made of uppercase ASCII letters and spaces, the empty text
    included, and raises [ValueError] for every other text; the texts it
    accepts are the ones [valid_text] accepts. *)
Theorem check_goal_accepts goal s :
  check_goal goal s =
    (if all_upper_or_space goal then Return tt s else Raise ValueError) /\
  valid_text goal = all_upper_or_space goal.
Proof.
  split; [|apply valid_text_upper_or_space].
  induction goal as [|c goal IH]; [done|].
  cbn [check_goal all_upper_or_space].
  rewrite char_in_VALID_CHARS.
  destruct (upper_or_space c); [exact IH | done].
Qed.

(** ** What each kind of mutation does *)

Lemma draw_symbol_Return s :
  exists c, draw_symbol s = Return c (advance 1 s) /\
            char_in c VALID_CHARS = true.
Proof.
  unfold draw_symbol.
  pose proof (randint_value_range 0 (len VALID_CHARS) s ltac:(done)) as Hr.
  destruct (symbol_of_draw_Return _ (advance 1 s) Hr) as (c & Hc & Hv).
  exists c.
  by rewrite (bind_Return _ _ _ _ _
               (randint_Return 0 (len VALID_CHARS) s ltac:(done))).
Qed.

(** X16: when the insertion test succeeds and the two other tests fail,
    on a non-empty individual, [mutate_text] returns the individual with
    the symbol its symbol draw returned put in front of the symbol at the
    index its position draw returned; that index is in [[0, len-1]], so
    the new symbol is never placed after the last one. *)
Theorem mutate_text_insertion message prob_ins prob_del prob_sub s :
  1 <= llen message ->
  fires prob_ins s = true ->
  fires prob_del (advance 3 s) = false ->
  fires prob_sub (advance 4 s) = false ->
  exists insert_loc to_insert,
    randint 0 (llen message - 1) (advance 1 s) =
      Return insert_loc (advance 2 s) /\
    draw_symbol (advance 2 s) = Return to_insert (advance 3 s) /\
    0 <= insert_loc <= llen message - 1 /\
    char_in to_insert VALID_CHARS = true /\
    mutate_text message prob_ins prob_del prob_sub s =
    Return (set_chars message
              (take (Z.to_nat insert_loc) (chars message) ++
               to_insert :: drop (Z.to_nat insert_loc) (chars message))%list)
           (advance 5 s).
Proof.
  intros Hlen Hins Hdel Hsub.
  pose proof (randint_value_range 0 (llen message - 1) (advance 1 s)
                ltac:(lia)) as Hloc.
  assert (randint 0 (llen message - 1) (advance 1 s) =
          Return (randint_value 0 (llen message - 1) (advance 1 s))
            (advance 2 s)) as Hdraw.
  { rewrite randint_Return by lia. by rewrite advance_advance. }
  destruct (draw_symbol_Return (advance 2 s)) as (c & Hc & Hv).
  rewrite advance_advance in Hc. cbn [Nat.add] in Hc.
  exists (randint_value 0 (llen message - 1) (advance 1 s)), c.
  do 4 (split; [done|]).
  unfold mutate_text. rewrite bind_random. fold (fires prob_ins s).
  rewrite Hins. cbv beta iota. rewrite bind_assoc.
  rewrite (bind_Return _ _ _ _ _ Hdraw).
  rewrite bind_assoc, (bind_Return _ _ _ _ _ Hc), bind_mret.
  rewrite bind_random. fold (fires prob_del (advance 3 s)).
  rewrite Hdel. cbv beta iota.
  rewrite bind_mret, bind_random, advance_advance. cbn [Nat.add].
  fold (fires prob_sub (advance 4 s)).
  rewrite Hsub. cbv beta iota.
  rewrite bind_mret, advance_advance. cbn [Nat.add]. unfold list_insert_at.
  destruct (Z.ltb_spec (randint_value 0 (llen message - 1) (advance 1 s)) 0);
    [lia|].
  unfold llen in *. by rewrite Z.min_l by lia.
Qed.

Lemma mutate_text_insertion_witness :
  exists insert_loc to_insert,
    randint 0 (llen (message_of "AB" None) - 1)
      (advance 1 (tape_of [0; 1; 3; 4503599627370496; 4503599627370496]%N)) =
      Return insert_loc
        (advance 2 (tape_of [0; 1; 3; 4503599627370496; 4503599627370496]%N)) /\
    draw_symbol
      (advance 2 (tape_of [0; 1; 3; 4503599627370496; 4503599627370496]%N)) =
      Return to_insert
        (advance 3 (tape_of [0; 1; 3; 4503599627370496; 4503599627370496]%N)) /\
    0 <= insert_loc <= llen (message_of "AB" None) - 1 /\
    char_in to_insert VALID_CHARS = true /\
    mutate_text (message_of "AB" None) (1 # 20)%Q (1 # 20)%Q (1 # 20)%Q
      (tape_of [0; 1; 3; 4503599627370496; 4503599627370496]%N) =
    Return (set_chars (message_of "AB" None)
              (take (Z.to_nat insert_loc) (chars (message_of "AB" None)) ++
               to_insert ::
               drop (Z.to_nat insert_loc) (chars (message_of "AB" None)))%list)
           (advance 5
              (tape_of [0; 1; 3; 4503599627370496; 4503599627370496]%N)).
Proof.
  apply (mutate_text_insertion (message_of "AB" None)
           (1 # 20)%Q (1 # 20)%Q (1 # 20)%Q
           (tape_of [0; 1; 3; 4503599627370496; 4503599627370496]%N)).
  - vm_compute. discriminate.
  - reflexivity.
  - reflexivity.
  - reflexivity.
Defined.

(** The insertion of the example above: draws 1 and 3 put [C] in front of
    the symbol at index 1. *)
Example mutate_text_insertion_example :
  mutate_text (message_of "AB" None) (1 # 20)%Q (1 # 20)%Q (1 # 20)%Q
    (tape_of [0; 1; 3; 4503599627370496; 4503599627370496]%N) =
  Return (message_of "ACB" None)
    (advance 5 (tape_of [0; 1; 3; 4503599627370496; 4503599627370496]%N)).
Proof. vm_compute. reflexivity. Qed.

(** X17: when the deletion test succeeds and the two other tests fail,
    on a non-empty individual, [mutate_text] returns the individual
    without the symbol at the index its position draw returned, an index
    of [[0, len-1]], and with every other symbol in place. *)
Theorem mutate_text_deletion message prob_ins prob_del prob_sub s :
  1 <= llen message ->
  fires prob_ins s = false ->
  fires prob_del (advance 1 s) = true ->
  fires prob_sub (advance 3 s) = false ->
  exists del_loc,
    randint 0 (llen message - 1) (advance 2 s) =
      Return del_loc (advance 3 s) /\
    0 <= del_loc <= llen message - 1 /\
    mutate_text message prob_ins prob_del prob_sub s =
    Return (set_chars message (delete (Z.to_nat del_loc) (chars message)))
           (advance 4 s).
Proof.
  intros Hlen Hins Hdel Hsub.
  pose proof (randint_value_range 0 (llen message - 1) (advance 2 s)
                ltac:(lia)) as Hloc.
  assert (randint 0 (llen message - 1) (advance 2 s) =
          Return (randint_value 0 (llen message - 1) (advance 2 s))
            (advance 3 s)) as Hdraw.
  { rewrite randint_Return by lia. by rewrite advance_advance. }
  exists (randint_value 0 (llen message - 1) (advance 2 s)).
  do 2 (split; [done|]).
  unfold mutate_text. rewrite bind_random. fold (fires prob_ins s).
  rewrite Hins. cbv beta iota.
  rewrite bind_mret, bind_random. fold (fires prob_del (advance 1 s)).
  rewrite Hdel. cbv beta iota. rewrite advance_advance. cbn [Nat.add].
  rewrite bind_assoc, (bind_Return _ _ _ _ _ Hdraw), bind_assoc.
  rewrite (bind_Return _ _ _ _ _
             (delitem_in (chars message)
                (randint_value 0 (llen message - 1) (advance 2 s))
                (advance 3 s) ltac:(unfold llen in *; lia))).
  rewrite bind_mret, bind_random.
  fold (fires prob_sub (advance 3 s)).
  rewrite Hsub. cbv beta iota.
  rewrite bind_mret, advance_advance. done.
Qed.

Lemma mutate_text_deletion_witness :
  exists del_loc,
    randint 0 (llen (message_of "AB" None) - 1)
      (advance 2 (tape_of [4503599627370496; 0; 1; 4503599627370496]%N)) =
      Return del_loc
        (advance 3 (tape_of [4503599627370496; 0; 1; 4503599627370496]%N)) /\
    0 <= del_loc <= llen (message_of "AB" None) - 1 /\
    mutate_text (message_of "AB" None) (1 # 20)%Q (1 # 20)%Q (1 # 20)%Q
      (tape_of [4503599627370496; 0; 1; 4503599627370496]%N) =
    Return (set_chars (message_of "AB" None)
              (delete (Z.to_nat del_loc) (chars (message_of "AB" None))))
           (advance 4 (tape_of [4503599627370496; 0; 1; 4503599627370496]%N)).
Proof.
  apply (mutate_text_deletion (message_of "AB" None)
           (1 # 20)%Q (1 # 20)%Q (1 # 20)%Q
           (tape_of [4503599627370496; 0; 1; 4503599627370496]%N)).
  - vm_compute. discriminate.
  - reflexivity.
  - reflexivity.
  - reflexivity.
Defined.

(** The deletion of the example above: draw 1 removes the symbol at
    index 1. *)
Example mutate_text_deletion_example :
  mutate_text (message_of "AB" None) (1 # 20)%Q (1 # 20)%Q (1 # 20)%Q
    (tape_of [4503599627370496; 0; 1; 4503599627370496]%N) =
  Return (message_of "A" None)
    (advance 4 (tape_of [4503599627370496; 0; 1; 4503599627370496]%N)).
Proof. vm_compute. reflexivity. Qed.

(** X18: when the substitution test succeeds and the two other tests
    fail, on a non-empty individual, [mutate_text] returns the individual
    with the symbol at the index its position draw returned, an index of
    [[0, len-1]], replaced by the symbol its symbol draw returned, and
    with every other symbol, and the length, as they were. *)
Theorem mutate_text_substitution message prob_ins prob_del prob_sub s :
  1 <= llen message ->
  fires prob_ins s = false ->
  fires prob_del (advance 1 s) = false ->
  fires prob_sub (advance 2 s) = true ->
  exists sub_loc to_sub,
    randint 0 (llen message - 1) (advance 3 s) =
      Return sub_loc (advance 4 s) /\
    draw_symbol (advance 4 s) = Return to_sub (advance 5 s) /\
    0 <= sub_loc <= llen message - 1 /\
    char_in to_sub VALID_CHARS = true /\
    mutate_text message prob_ins prob_del prob_sub s =
    Return (set_chars message (<[Z.to_nat sub_loc := to_sub]> (chars message)))
           (advance 5 s).
Proof.
  intros Hlen Hins Hdel Hsub.
  pose proof (randint_value_range 0 (llen message - 1) (advance 3 s)
                ltac:(lia)) as Hloc.
  assert (randint 0 (llen message - 1) (advance 3 s) =
          Return (randint_value 0 (llen message - 1) (advance 3 s))
            (advance 4 s)) as Hdraw.
  { rewrite randint_Return by lia. by rewrite advance_advance. }
  destruct (draw_symbol_Return (advance 4 s)) as (c & Hc & Hv).
  rewrite advance_advance in Hc. cbn [Nat.add] in Hc.
  exists (randint_value 0 (llen message - 1) (advance 3 s)), c.
  do 4 (split; [done|]).
  unfold mutate_text. rewrite bind_random. fold (fires prob_ins s).
  rewrite Hins. cbv beta iota.
  rewrite bind_mret, bind_random. fold (fires prob_del (advance 1 s)).
  rewrite Hdel. cbv beta iota.
  rewrite bind_mret, bind_random, advance_advance. cbn [Nat.add].
  fold (fires prob_sub (advance 2 s)). rewrite Hsub. cbv beta iota.
  rewrite advance_advance. cbn [Nat.add].
  rewrite bind_assoc, (bind_Return _ _ _ _ _ Hdraw).
  rewrite bind_assoc, (bind_Return _ _ _ _ _ Hc), bind_assoc.
  rewrite (bind_Return _ _ _ _ _
             (delitem_in (chars message)
                (randint_value 0 (llen message - 1) (advance 3 s))
                (advance 5 s) ltac:(unfold llen in *; lia))).
  rewrite !bind_mret.
  rewrite insert_at_delete by (unfold llen in *; lia). done.
Qed.

Lemma mutate_text_substitution_witness :
  exists sub_loc to_sub,
    randint 0 (llen (message_of "AB" None) - 1)
      (advance 3 (tape_of [4503599627370496; 4503599627370496; 0; 1; 3]%N)) =
      Return sub_loc
        (advance 4 (tape_of [4503599627370496; 4503599627370496; 0; 1; 3]%N)) /\
    draw_symbol
      (advance 4 (tape_of [4503599627370496; 4503599627370496; 0; 1; 3]%N)) =
      Return to_sub
        (advance 5 (tape_of [4503599627370496; 4503599627370496; 0; 1; 3]%N)) /\
    0 <= sub_loc <= llen (message_of "AB" None) - 1 /\
    char_in to_sub VALID_CHARS = true /\
    mutate_text (message_of "AB" None) (1 # 20)%Q (1 # 20)%Q (1 # 20)%Q
      (tape_of [4503599627370496; 4503599627370496; 0; 1; 3]%N) =
    Return (set_chars (message_of "AB" None)
              (<[Z.to_nat sub_loc := to_sub]> (chars (message_of "AB" None))))
           (advance 5
              (tape_of [4503599627370496; 4503599627370496; 0; 1; 3]%N)).
Proof.
  apply (mutate_text_substitution (message_of "AB" None)
           (1 # 20)%Q (1 # 20)%Q (1 # 20)%Q
           (tape_of [4503599627370496; 4503599627370496; 0; 1; 3]%N)).
  - vm_compute. discriminate.
  - reflexivity.
  - reflexivity.
  - reflexivity.
Defined.

(** The substitution of the example above: draws 1 and 3 write [C] at
    index 1. *)
Example mutate_text_substitution_example :
  mutate_text (message_of "AB" None) (1 # 20)%Q (1 # 20)%Q (1 # 20)%Q
    (tape_of [4503599627370496; 4503599627370496; 0; 1; 3]%N) =
  Return (message_of "AC" None)
    (advance 5 (tape_of [4503599627370496; 4503599627370496; 0; 1; 3]%N)).
Proof. vm_compute. reflexivity. Qed.
